(** * TimeLockInheritance: a shallow embedding of the vault contract

    The development follows [contracts/TimeLockInheritance.sol].  Storage
    mappings are finite maps read with the zero value as default, [uint256]
    values are integers whose checked arithmetic is written out, a failed
    [require] is an error carrying the revert reason, and every external
    function maps the storage before the call to either an error or the
    storage after the call together with the effects it produced (events
    and value transfers). *)

From Stdlib Require Import ZArith Lia.
From stdpp Require Import gmap strings list list_numbers.

Open Scope Z_scope.

(** ** Machine integers and failure *)

Definition address := Z.
Definition bytes := list Byte.byte.

Definition uint256_max : Z := 2 ^ 256 - 1.
Definition is_uint256 (x : Z) : Prop := 0 <= x <= uint256_max.

(** A call stops either on a [require] whose condition is false (with its
    reason string), on a checked-arithmetic panic (code 0x11), or inside the
    encryption library when an input proof is rejected. *)
Inductive error :=
| Revert (reason : string)
| Panic (code : Z)
| InputProofRejected.

Inductive result (A : Type) :=
| Ok (a : A)
| Err (e : error).
Arguments Ok {A} a.
Arguments Err {A} e.

Definition bind {A B} (c : result A) (k : A -> result B) : result B :=
  match c with
  | Ok a => k a
  | Err e => Err e
  end.

Notation "x <- c ;; k" := (bind c (fun x => k))
  (at level 100, c at next level, right associativity).

Definition require (cond : bool) (reason : string) : result unit :=
  if cond then Ok tt else Err (Revert reason).

Definition checked_add (a b : Z) : result Z :=
  if a + b <=? uint256_max then Ok (a + b) else Err (Panic 17).

Definition checked_sub (a b : Z) : result Z :=
  if b <=? a then Ok (a - b) else Err (Panic 17).

(** ** Constants, enums and structs *)

Definition UNLOCK_INTERVAL : Z := 365 * 86400.
Definition TOTAL_STAGES : Z := 4.

Inductive UnlockMode := ONE_TIME | STAGED.

Record Vault := mkVault {
  id : Z;
  creator : address;
  totalAmount : Z;
  firstUnlockTime : Z;
  stagesUnlocked : Z;
  emergencyUnlocked : bool;
  isActive : bool;
  beneficiaryCount : Z;
  unlockMode : UnlockMode
}.

(** [euint128] values are handles; the contract never sees what they
    encrypt. *)
Definition euint128 := Z.
Definition externalEuint128 := Z.

Record Beneficiary := mkBeneficiary {
  encryptedAddress : euint128;
  encryptedAmount : euint128;
  totalClaimed : Z
}.

(** The value a storage mapping yields at a key never written. *)
Definition zero_vault : Vault :=
  mkVault 0 0 0 0 0 false false 0 ONE_TIME.
Definition zero_beneficiary : Beneficiary := mkBeneficiary 0 0 0.

(** ** Storage

    Besides the five state variables the record holds the contract's ether
    balance and the access-control list of the encryption library, which
    [addBeneficiary] extends. *)
Record State := mkState {
  vaults : gmap Z Vault;
  beneficiaries : gmap (Z * Z) Beneficiary;
  creatorVaults : gmap address (list Z);
  beneficiaryVaults : gmap address (list Z);
  vaultCount : Z;
  balance : Z;
  acl : gset (euint128 * address)
}.

Definition initial_state : State := mkState ∅ ∅ ∅ ∅ 0 0 ∅.

Definition vault_at (st : State) (vaultId : Z) : Vault :=
  default zero_vault (vaults st !! vaultId).

Definition beneficiary_at (st : State) (vaultId index : Z) : Beneficiary :=
  default zero_beneficiary (beneficiaries st !! (vaultId, index)).

Definition set_vault (vaultId : Z) (v : Vault) (st : State) : State :=
  mkState (<[vaultId := v]> (vaults st)) (beneficiaries st) (creatorVaults st)
          (beneficiaryVaults st) (vaultCount st) (balance st) (acl st).

Definition set_beneficiary (vaultId index : Z) (b : Beneficiary) (st : State) : State :=
  mkState (vaults st) (<[(vaultId, index) := b]> (beneficiaries st)) (creatorVaults st)
          (beneficiaryVaults st) (vaultCount st) (balance st) (acl st).

Definition push_creatorVaults (who : address) (vaultId : Z) (st : State) : State :=
  mkState (vaults st) (beneficiaries st)
          (<[who := default [] (creatorVaults st !! who) ++ [vaultId]]> (creatorVaults st))
          (beneficiaryVaults st) (vaultCount st) (balance st) (acl st).

Definition push_beneficiaryVaults (who : address) (vaultId : Z) (st : State) : State :=
  mkState (vaults st) (beneficiaries st) (creatorVaults st)
          (<[who := default [] (beneficiaryVaults st !! who) ++ [vaultId]]> (beneficiaryVaults st))
          (vaultCount st) (balance st) (acl st).

Definition set_vaultCount (n : Z) (st : State) : State :=
  mkState (vaults st) (beneficiaries st) (creatorVaults st)
          (beneficiaryVaults st) n (balance st) (acl st).

Definition set_balance (n : Z) (st : State) : State :=
  mkState (vaults st) (beneficiaries st) (creatorVaults st)
          (beneficiaryVaults st) (vaultCount st) n (acl st).

Definition grant (h : euint128) (who : address) (st : State) : State :=
  mkState (vaults st) (beneficiaries st) (creatorVaults st)
          (beneficiaryVaults st) (vaultCount st) (balance st) ({[ (h, who) ]} ∪ acl st).

Definition with_stagesUnlocked (n : Z) (v : Vault) : Vault :=
  mkVault (id v) (creator v) (totalAmount v) (firstUnlockTime v) n
          (emergencyUnlocked v) (isActive v) (beneficiaryCount v) (unlockMode v).

Definition with_emergencyUnlocked (b : bool) (v : Vault) : Vault :=
  mkVault (id v) (creator v) (totalAmount v) (firstUnlockTime v) (stagesUnlocked v)
          b (isActive v) (beneficiaryCount v) (unlockMode v).

Definition with_totalClaimed (n : Z) (b : Beneficiary) : Beneficiary :=
  mkBeneficiary (encryptedAddress b) (encryptedAmount b) n.

(** ** The environment of a call

    [msg.sender], [msg.value], [block.timestamp] and [address(this)], and the
    three things the contract obtains from outside: whether the encryption
    library accepts an input handle with its proof, what a handle encrypts
    (used by no contract function: only statements about the intended
    matching read it), and whether a recipient accepts a value transfer. *)
Record Env := mkEnv {
  msg_sender : address;
  msg_value : Z;
  block_timestamp : Z;
  this : address;
  input_verified : externalEuint128 -> bytes -> bool;
  plaintext : euint128 -> Z;
  accepts_value : address -> Z -> bool
}.

Inductive Event :=
| VaultCreated (vaultId : Z) (creator : address) (totalAmount firstUnlockTime : Z)
| StageUnlocked (vaultId stage timestamp : Z)
| EmergencyUnlock (vaultId timestamp : Z)
| InheritanceClaimed (vaultId : Z) (beneficiary : address) (amount stage : Z)
| BeneficiaryAdded (vaultId beneficiaryIndex : Z).

Inductive Effect :=
| Emit (e : Event)
| Transfer (recipient : address) (amount : Z).

(** ** The encryption library, as far as the contract uses it *)

Definition FHE_fromExternal (env : Env) (h : externalEuint128) (proof : bytes) : result euint128 :=
  if input_verified env h proof then Ok h else Err InputProofRejected.

Definition FHE_allowThis (env : Env) (h : euint128) (st : State) : State :=
  grant h (this env) st.

Definition FHE_allow (h : euint128) (who : address) (st : State) : State :=
  grant h who st.

(** ** Modifiers *)

Definition vaultExists (st : State) (vaultId : Z) : result unit :=
  _ <- require ((0 <? vaultId) && (vaultId <=? vaultCount st)) "Vault does not exist";;
  require (isActive (vault_at st vaultId)) "Vault is not active".

Definition onlyCreator (env : Env) (st : State) (vaultId : Z) : result unit :=
  require (bool_decide (creator (vault_at st vaultId) = msg_sender env)) "Not vault creator".

(** ** External functions that change storage *)

(** [createVault] is payable: the value sent with the call is credited to
    the contract's balance. *)
Definition createVault (env : Env) (st : State)
    (firstUnlockTime : Z) (unlockMode : UnlockMode) (beneficiaryCount : Z)
    : result (Z * State * list Effect) :=
  _ <- require (0 <? msg_value env) "Must deposit ETH";;
  _ <- require (block_timestamp env <? firstUnlockTime) "Unlock time must be in future";;
  _ <- require (0 <? beneficiaryCount) "Must have at least one beneficiary";;
  count <- checked_add (vaultCount st) 1;;
  let vault :=
    mkVault count (msg_sender env) (msg_value env) firstUnlockTime 0 false true
            beneficiaryCount unlockMode in
  let st1 := set_vaultCount count st in
  let st2 := set_vault count vault st1 in
  let st3 := push_creatorVaults (msg_sender env) count st2 in
  let st4 := set_balance (balance st3 + msg_value env) st3 in
  Ok (count, st4,
      [Emit (VaultCreated count (msg_sender env) (msg_value env) firstUnlockTime)]).

Definition addBeneficiary (env : Env) (st : State)
    (vaultId beneficiaryIndex : Z)
    (encryptedAddress encryptedAmount : externalEuint128)
    (addressProof amountProof : bytes)
    : result (State * list Effect) :=
  _ <- vaultExists st vaultId;;
  _ <- onlyCreator env st vaultId;;
  _ <- require (beneficiaryIndex <? beneficiaryCount (vault_at st vaultId))
               "Invalid beneficiary index";;
  _ <- require (totalClaimed (beneficiary_at st vaultId beneficiaryIndex) =? 0)
               "Beneficiary already added";;
  encAddr <- FHE_fromExternal env encryptedAddress addressProof;;
  encAmount <- FHE_fromExternal env encryptedAmount amountProof;;
  let st1 := set_beneficiary vaultId beneficiaryIndex
               (mkBeneficiary encAddr encAmount 0) st in
  let st2 := FHE_allowThis env encAddr st1 in
  let st3 := FHE_allowThis env encAmount st2 in
  let st4 := FHE_allow encAddr (msg_sender env) st3 in
  let st5 := FHE_allow encAmount (msg_sender env) st4 in
  Ok (st5, [Emit (BeneficiaryAdded vaultId beneficiaryIndex)]).

Definition emergencyUnlock (env : Env) (st : State) (vaultId : Z)
    : result (State * list Effect) :=
  _ <- vaultExists st vaultId;;
  _ <- onlyCreator env st vaultId;;
  _ <- require (negb (emergencyUnlocked (vault_at st vaultId)))
               "Already emergency unlocked";;
  let st1 := set_vault vaultId (with_emergencyUnlocked true (vault_at st vaultId)) st in
  let st2 := set_vault vaultId (with_stagesUnlocked TOTAL_STAGES (vault_at st1 vaultId)) st1 in
  Ok (st2, [Emit (EmergencyUnlock vaultId (block_timestamp env))]).

(** ** Private functions *)

Definition _getCurrentStage (env : Env) (st : State) (vaultId : Z) : result Z :=
  let vault := vault_at st vaultId in
  if emergencyUnlocked vault then Ok TOTAL_STAGES
  else if block_timestamp env <? firstUnlockTime vault then Ok 0
  else match unlockMode vault with
       | ONE_TIME => Ok TOTAL_STAGES
       | STAGED =>
           timeElapsed <- checked_sub (block_timestamp env) (firstUnlockTime vault);;
           stage <- checked_add (timeElapsed / UNLOCK_INTERVAL) 1;;
           Ok (if TOTAL_STAGES <? stage then TOTAL_STAGES else stage)
       end.

(** The body after the stage test is the source's placeholder: it compares
    nothing and reports no match. *)
Definition _findBeneficiaryAndCalculateClaim (env : Env) (st : State)
    (vaultId : Z) (beneficiaryAddr : address) : result (bool * Z * Z) :=
  let vault := vault_at st vaultId in
  currentStage <- _getCurrentStage env st vaultId;;
  if currentStage =? 0 then Ok (false, 0, 0)
  else Ok (false, 0, 0).

(** ** Claiming *)

(** [recipient.call{value: amount}("")]: the transfer succeeds when the
    balance covers it and the recipient accepts it.  The recipient is taken
    not to call back into the contract. *)
Definition call_value (env : Env) (recipient : address) (amount : Z) (st : State)
    : bool * State :=
  if (amount <=? balance st) && accepts_value env recipient amount
  then (true, set_balance (balance st - amount) st)
  else (false, st).

Definition Matcher := Env -> State -> Z -> address -> result (bool * Z * Z).

(** The block of [claimInheritance] under "Update vault stages if needed":
    one [StageUnlocked] event per newly reached stage, then the write. *)
Definition update_stages (env : Env) (vaultId currentStage : Z) (st : State)
    : State * list Effect :=
  let vault := vault_at st vaultId in
  if (stagesUnlocked vault <? currentStage) && negb (emergencyUnlocked vault)
  then (set_vault vaultId (with_stagesUnlocked currentStage vault) st,
        (fun i => Emit (StageUnlocked vaultId (i + 1) (block_timestamp env)))
          <$> seqZ (stagesUnlocked vault) (currentStage - stagesUnlocked vault))
  else (st, []).

Section ClaimBody.

(** The body of [claimInheritance] is written once over the function it
    calls to find the caller's slot, so that what the body does with a
    match can be stated apart from the placeholder. *)
Variable find : Matcher.

Definition claimInheritance_with (env : Env) (st : State) (vaultId : Z)
    : result (State * list Effect) :=
  _ <- vaultExists st vaultId;;
  currentStage <- _getCurrentStage env st vaultId;;
  _ <- require (0 <? currentStage) "No stages unlocked yet";;
  let '(st1, unlocked) := update_stages env vaultId currentStage st in
  m <- find env st1 vaultId (msg_sender env);;
  let '(found, beneficiaryIndex, claimableAmount) := m in
  _ <- require found "Not a beneficiary";;
  _ <- require (0 <? claimableAmount) "Nothing to claim";;
  claimed <- checked_add (totalClaimed (beneficiary_at st1 vaultId beneficiaryIndex))
                         claimableAmount;;
  let st2 := set_beneficiary vaultId beneficiaryIndex
               (with_totalClaimed claimed (beneficiary_at st1 vaultId beneficiaryIndex))
               st1 in
  let '(success, st3) := call_value env (msg_sender env) claimableAmount st2 in
  _ <- require success "Transfer failed";;
  let st4 :=
    if totalClaimed (beneficiary_at st3 vaultId beneficiaryIndex) =? claimableAmount
    then push_beneficiaryVaults (msg_sender env) vaultId st3
    else st3 in
  Ok (st4,
      unlocked ++
      [Transfer (msg_sender env) claimableAmount;
       Emit (InheritanceClaimed vaultId (msg_sender env) claimableAmount
               (stagesUnlocked (vault_at st4 vaultId)))]).

Definition checkInheritance_with (env : Env) (st : State) (vaultId : Z)
    : result (bool * Z * Z) :=
  _ <- vaultExists st vaultId;;
  m <- find env st vaultId (msg_sender env);;
  let '(found, beneficiaryIndex, claimable) := m in
  if negb found then Ok (false, 0, 0)
  else
    let total := 0 in
    Ok (true, claimable, total).

End ClaimBody.

Definition claimInheritance : Env -> State -> Z -> result (State * list Effect) :=
  claimInheritance_with _findBeneficiaryAndCalculateClaim.

(** ** Views *)

Definition checkInheritance : Env -> State -> Z -> result (bool * Z * Z) :=
  checkInheritance_with _findBeneficiaryAndCalculateClaim.

Definition getVault (st : State) (vaultId : Z) : result Vault :=
  _ <- vaultExists st vaultId;;
  Ok (vault_at st vaultId).

Definition getCreatorVaults (st : State) (creator : address) : list Z :=
  default [] (creatorVaults st !! creator).

Definition getBeneficiaryVaults (st : State) (beneficiary : address) : list Z :=
  default [] (beneficiaryVaults st !! beneficiary).

Definition getEncryptedBeneficiary (env : Env) (st : State) (vaultId beneficiaryIndex : Z)
    : result (euint128 * euint128) :=
  _ <- vaultExists st vaultId;;
  _ <- onlyCreator env st vaultId;;
  _ <- require (beneficiaryIndex <? beneficiaryCount (vault_at st vaultId)) "Invalid index";;
  let ben := beneficiary_at st vaultId beneficiaryIndex in
  Ok (encryptedAddress ben, encryptedAmount ben).

(** ** Transactions

    A transaction is one external call.  Only [createVault] is payable: a
    call to another function that carries value is rejected before its body
    runs.  A failed call leaves the storage as it was. *)

Inductive Call :=
| CallCreateVault (firstUnlockTime : Z) (unlockMode : UnlockMode) (beneficiaryCount : Z)
| CallAddBeneficiary (vaultId beneficiaryIndex : Z)
    (encryptedAddress encryptedAmount : externalEuint128) (addressProof amountProof : bytes)
| CallEmergencyUnlock (vaultId : Z)
| CallClaimInheritance (vaultId : Z).

Definition nonpayable (env : Env) : result unit :=
  if msg_value env =? 0 then Ok tt else Err (Revert "").

Definition execute_with (find : Matcher) (env : Env) (c : Call) (st : State)
    : result (State * list Effect) :=
  match c with
  | CallCreateVault t mode n =>
      r <- createVault env st t mode n;;
      Ok (r.1.2, r.2)
  | CallAddBeneficiary v i a m pa pm =>
      _ <- nonpayable env;; addBeneficiary env st v i a m pa pm
  | CallEmergencyUnlock v =>
      _ <- nonpayable env;; emergencyUnlock env st v
  | CallClaimInheritance v =>
      _ <- nonpayable env;; claimInheritance_with find env st v
  end.

Definition transact_with (find : Matcher) (st : State) (tx : Env * Call) : State :=
  match execute_with find tx.1 tx.2 st with
  | Ok (st', _) => st'
  | Err _ => st
  end.

Definition run_with (find : Matcher) (st : State) (txs : list (Env * Call)) : State :=
  foldl (transact_with find) st txs.

Definition execute := execute_with _findBeneficiaryAndCalculateClaim.
Definition transact := transact_with _findBeneficiaryAndCalculateClaim.
Definition run := run_with _findBeneficiaryAndCalculateClaim.

(** ** The specification's vocabulary

    The specification names failures; the contract reverts with reason
    strings.  The correspondence is fixed here once. *)

Definition InvalidAmount : error := Revert "Must deposit ETH".
Definition InvalidSchedule : error := Revert "Unlock time must be in future".
Definition InvalidSlotCount : error := Revert "Must have at least one beneficiary".
Definition VaultNotFound : error := Revert "Vault does not exist".
Definition VaultInactive : error := Revert "Vault is not active".
Definition NotCreator : error := Revert "Not vault creator".
Definition DuplicateSlotWrite : error := Revert "Beneficiary already added".
Definition StageNotReady : error := Revert "No stages unlocked yet".
Definition NothingToClaim : error := Revert "Nothing to claim".
Definition TransferFailed : error := Revert "Transfer failed".
(** A revert of the contract that the specification's taxonomy lacks. *)
Definition NotABeneficiary : error := Revert "Not a beneficiary".

(** The stage calculator in the specification's words. *)
Definition spec_stage (now : Z) (vault : Vault) : Z :=
  if emergencyUnlocked vault then TOTAL_STAGES
  else if now <? firstUnlockTime vault then 0
  else match unlockMode vault with
       | ONE_TIME => TOTAL_STAGES
       | STAGED => Z.min TOTAL_STAGES ((now - firstUnlockTime vault) / UNLOCK_INTERVAL + 1)
       end.

(** The identity the front end encrypts for a beneficiary: the low 128 bits
    of the address ([encryptAddress] in [frontend/src/utils/fhe.ts]). *)
Definition identity_of (a : address) : Z := Z.land a (2 ^ 128 - 1).

(** The claim resolver in the specification's words, over what the handles
    encrypt: a slot matches when it was written and its identity is the
    claimant's. *)
Definition slot_matches (env : Env) (st : State) (vaultId : Z) (claimant : address)
    (index : Z) : bool :=
  match beneficiaries st !! (vaultId, index) with
  | Some slot => plaintext env (encryptedAddress slot) =? identity_of claimant
  | None => false
  end.

Definition slot_indices (st : State) (vaultId : Z) : list Z :=
  seqZ 0 (beneficiaryCount (vault_at st vaultId)).

Definition sum_list (l : list Z) : Z := foldr Z.add 0 l.

Definition spec_matchedEntitlement (env : Env) (st : State) (vaultId : Z)
    (claimant : address) : Z :=
  sum_list ((fun i => if slot_matches env st vaultId claimant i
                      then plaintext env (encryptedAmount (beneficiary_at st vaultId i))
                      else 0) <$> slot_indices st vaultId).

Definition spec_matchedAlreadyClaimed (env : Env) (st : State) (vaultId : Z)
    (claimant : address) : Z :=
  sum_list ((fun i => if slot_matches env st vaultId claimant i
                      then totalClaimed (beneficiary_at st vaultId i)
                      else 0) <$> slot_indices st vaultId).

Definition spec_claimable (env : Env) (st : State) (vaultId : Z)
    (claimant : address) (S : Z) : Z :=
  spec_matchedEntitlement env st vaultId claimant * S / TOTAL_STAGES
  - spec_matchedAlreadyClaimed env st vaultId claimant.

Definition matches_no_slot (env : Env) (st : State) (vaultId : Z)
    (claimant : address) : bool :=
  forallb (fun i => negb (slot_matches env st vaultId claimant i))
          (slot_indices st vaultId).

(** Not code of the repository: a matching function written from the
    specification's claim resolver (section 4.4, steps 3 to 6), with the
    first matched slot as the one whose accumulator grows.  It stands for
    "some matching function that does find a slot" where a statement about
    the body of [claimInheritance] is shown on an example; the contract's
    own matching function is [_findBeneficiaryAndCalculateClaim]. *)
Definition spec_matcher : Matcher := fun env st vaultId claimant =>
  S <- _getCurrentStage env st vaultId;;
  if S =? 0 then Ok (false, 0, 0)
  else match filter (fun i => slot_matches env st vaultId claimant i = true)
                    (slot_indices st vaultId) with
       | i :: _ => Ok (true, i, spec_claimable env st vaultId claimant S)
       | [] => Ok (false, 0, 0)
       end.

(** ** A worked scenario

    The creator (address 7) deposits 1000 into a staged vault of two slots,
    writes slot 0 for address 9 (entitlement 600) and slot 1 for address 11
    (entitlement 400), then unlocks the vault by emergency. *)

Definition scenario_plaintext (h : euint128) : Z :=
  if h =? 55 then identity_of 9
  else if h =? 66 then 600
  else if h =? 57 then identity_of 11
  else if h =? 68 then 400
  else 0.

Definition scenario_env (sender : address) (value timestamp : Z) : Env :=
  mkEnv sender value timestamp 1000 (fun _ _ => true) scenario_plaintext (fun _ _ => true).

(** The same caller when the recipient of a transfer refuses it. *)
Definition scenario_env_refusing (sender : address) (value timestamp : Z) : Env :=
  mkEnv sender value timestamp 1000 (fun _ _ => true) scenario_plaintext (fun _ _ => false).

Definition scenario_created : State :=
  run initial_state [(scenario_env 7 1000 100, CallCreateVault 200 STAGED 2)].

Definition scenario_slot0 : State :=
  run scenario_created [(scenario_env 7 0 110, CallAddBeneficiary 1 0 55 66 [] [])].

Definition scenario_written : State :=
  run scenario_slot0 [(scenario_env 7 0 120, CallAddBeneficiary 1 1 57 68 [] [])].

Definition scenario_unlocked : State :=
  run scenario_written [(scenario_env 7 0 130, CallEmergencyUnlock 1)].

(** What the ledger would be after address 9 claimed, had the contract
    called the specification's matcher: a ledger the storage layout allows
    and the contract, with its placeholder, does not reach. *)
Definition scenario_claimed : State :=
  run_with spec_matcher scenario_unlocked
    [(scenario_env 9 0 140, CallClaimInheritance 1)].

(** The same vault with its [isActive] flag cleared: no function of the
    contract produces it, the storage layout allows it. *)
Definition scenario_inactive : State :=
  set_vault 1 (mkVault 1 7 1000 200 0 false false 2 STAGED) scenario_written.

(** ** Invariants of the ledger

    Ids above [vaultCount] are unused, and no vault records more than
    TOTAL_STAGES stages. *)

Definition fresh_above (st : State) : Prop :=
  forall k, vaultCount st < k -> vaults st !! k = None.

Definition stages_bounded (st : State) : Prop :=
  forall k, stagesUnlocked (vault_at st k) <= TOTAL_STAGES.

Definition ledger_inv (st : State) : Prop := fresh_above st /\ stages_bounded st.

(** What a successful call may do to the vault table: nothing, or one write
    at an id within the new count that keeps the creator and the active
    flag of an existing vault, keeps an emergency unlock, and (on a ledger
    that satisfies the invariant) moves the stage count up, within
    TOTAL_STAGES. *)
Definition vault_write_ok (st st' : State) : Prop :=
  vaults st' = vaults st \/
  exists k v,
    vaults st' = <[k := v]> (vaults st) /\ k <= vaultCount st' /\
    (ledger_inv st -> stagesUnlocked (vault_at st k) <= stagesUnlocked v <= TOTAL_STAGES) /\
    (k <= vaultCount st ->
       creator v = creator (vault_at st k) /\
       isActive v = isActive (vault_at st k) /\
       (emergencyUnlocked (vault_at st k) = true -> emergencyUnlocked v = true)).

(** A vault that exists, is active, belongs to [owner] and has been
    unlocked by emergency. *)
Definition emergency_unlocked_by (owner : address) (st : State) (vaultId : Z) : Prop :=
  0 < vaultId <= vaultCount st /\
  isActive (vault_at st vaultId) = true /\
  creator (vault_at st vaultId) = owner /\
  emergencyUnlocked (vault_at st vaultId) = true.

(** With the placeholder matcher a stage count is recorded only by an
    emergency unlock. *)
Definition stage_needs_emergency (st : State) : Prop :=
  forall k, stagesUnlocked (vault_at st k) <> 0 ->
            emergencyUnlocked (vault_at st k) = true.

Definition no_transfer (effs : list Effect) : Prop :=
  forall recipient amount, Transfer recipient amount ∉ effs.

(** ** The front end, as far as it computes

    [useTimeLock] (the React hook over the contract) masks the amount it
    encrypts, reads one vault and lists all of them.  Its reads are taken
    against one ledger. *)

(** [amountHash] in the hook's [addBeneficiary]: the low 128 bits of the
    amount in wei. *)
Definition amountHash (amountBigInt : Z) : Z :=
  Z.land amountBigInt (Z.shiftl 1 128 - 1).

Module useTimeLock.

(** The hook's [getVault]: the contract's [getVault], with [null] for a
    call that reverts. *)
Definition getVault (st : State) (vaultId : Z) : option Vault :=
  match getVault st vaultId with
  | Ok vault => Some vault
  | Err _ => None
  end.

Definition getAllVaults (st : State) : list Vault :=
  omap (fun i => match getVault st i with
                 | Some vault => if isActive vault then Some vault else None
                 | None => None
                 end)
       (seqZ 1 (vaultCount st)).

End useTimeLock.

(** ** Quantities and relations used by the properties of the ledger *)

(** The deposits of all vaults created so far. *)
Definition total_deposits (st : State) : Z :=
  sum_list ((fun k => totalAmount (vault_at st k)) <$> seqZ 1 (vaultCount st)).

(** The ids, in order of creation, of the vaults a given address created. *)
Definition vaults_created_by (st : State) (who : address) : list Z :=
  filter (fun k => creator (vault_at st k) = who) (seqZ 1 (vaultCount st)).

(** The terms of a vault: everything but its unlock progress. *)
Definition same_terms (v w : Vault) : Prop :=
  id v = id w /\ creator v = creator w /\ totalAmount v = totalAmount w /\
  firstUnlockTime v = firstUnlockTime w /\ isActive v = isActive w /\
  beneficiaryCount v = beneficiaryCount w /\ unlockMode v = unlockMode w.

(** The value a list of effects sends out, and the value a call brings in. *)
Definition transferred (effs : list Effect) : Z :=
  sum_list ((fun e => match e with Transfer _ amount => amount | Emit _ => 0 end) <$> effs).

Definition deposit_of (env : Env) (c : Call) : Z :=
  match c with
  | CallCreateVault _ _ _ => msg_value env
  | _ => 0
  end.

(** The vault table of a ledger built by the contract: ids run from 1 to
    [vaultCount], every vault carries its id, is active, holds a positive
    deposit and has at least one slot, and each creator's list names that
    creator's vaults in order. *)
Definition vault_table_ok (st : State) : Prop :=
  0 <= vaultCount st /\
  (forall k, ~ 0 < k <= vaultCount st -> vaults st !! k = None) /\
  (forall k, 0 < k <= vaultCount st ->
     id (vault_at st k) = k /\ isActive (vault_at st k) = true /\
     0 < totalAmount (vault_at st k) /\ 0 < beneficiaryCount (vault_at st k)) /\
  (forall who, getCreatorVaults st who = vaults_created_by st who).

(** ** Ether that arrives outside any call

    The contract's balance can be credited without any of its functions
    running (a self-destructing contract that names it as recipient, a block
    reward, ether sent to the address before deployment).  Such a credit
    raises the balance and touches nothing else.  [run] and [run_with]
    follow the contract's own transactions only; [run_open] interleaves
    them with credits. *)

Inductive LedgerStep :=
| StepCall (env : Env) (c : Call)
| StepCredit (amount : N).

Definition ledger_step (st : State) (s : LedgerStep) : State :=
  match s with
  | StepCall env c => transact st (env, c)
  | StepCredit amount => set_balance (balance st + Z.of_N amount) st
  end.

Definition run_open (st : State) (steps : list LedgerStep) : State :=
  foldl ledger_step st steps.

Definition credited (steps : list LedgerStep) : Z :=
  sum_list ((fun s => match s with
                      | StepCall _ _ => 0
                      | StepCredit amount => Z.of_N amount
                      end) <$> steps).

(** * Properties *)

(** ** Running a call: inversion of the sequencing *)

Lemma bind_Ok {A B} (c : result A) (k : A -> result B) (b : B) :
  bind c k = Ok b -> exists a, c = Ok a /\ k a = Ok b.
Proof. destruct c as [a|e]; simpl; [eauto | discriminate]. Qed.

Lemma require_Ok (cond : bool) (reason : string) (u : unit) :
  require cond reason = Ok u -> cond = true.
Proof. destruct cond; [reflexivity | discriminate]. Qed.

Lemma checked_add_Ok (a b c : Z) :
  checked_add a b = Ok c -> c = a + b /\ a + b <= uint256_max.
Proof.
  unfold checked_add. destruct (a + b <=? uint256_max) eqn:E; [|discriminate].
  intros [= <-]. split; [reflexivity | lia].
Qed.

Lemma checked_sub_Ok (a b c : Z) :
  checked_sub a b = Ok c -> c = a - b /\ b <= a.
Proof.
  unfold checked_sub. destruct (b <=? a) eqn:E; [|discriminate].
  intros [= <-]. split; [reflexivity | lia].
Qed.

(** Splits a successful run of sequenced steps into its steps. *)
Ltac inv_bind H :=
  repeat match type of H with
  | bind _ _ = Ok _ =>
      let a := fresh "a" in
      let Ha := fresh "Hstep" in
      apply bind_Ok in H; destruct H as (a & Ha & H)
  end.

Lemma uint256_max_large : 2 <= uint256_max.
Proof. unfold uint256_max. assert (2 ^ 2 <= 2 ^ 256) by (apply Z.pow_le_mono_r; lia). lia. Qed.

(** ** The modifiers *)

Lemma vaultExists_cases (st : State) (vaultId : Z) :
  vaultExists st vaultId =
    if (0 <? vaultId) && (vaultId <=? vaultCount st)
    then if isActive (vault_at st vaultId) then Ok tt else Err VaultInactive
    else Err VaultNotFound.
Proof.
  unfold vaultExists.
  destruct ((0 <? vaultId) && (vaultId <=? vaultCount st)); simpl; [|reflexivity].
  destruct (isActive (vault_at st vaultId)); reflexivity.
Qed.

Lemma vaultExists_Ok (st : State) (vaultId : Z) (u : unit) :
  vaultExists st vaultId = Ok u ->
  0 < vaultId <= vaultCount st /\ isActive (vault_at st vaultId) = true.
Proof.
  rewrite vaultExists_cases.
  destruct ((0 <? vaultId) && (vaultId <=? vaultCount st)) eqn:E; [|discriminate].
  destruct (isActive (vault_at st vaultId)); [|discriminate].
  intros _. apply andb_true_iff in E. split; [lia | reflexivity].
Qed.

Lemma vaultExists_unassigned (st : State) (vaultId : Z) :
  ~ (0 < vaultId <= vaultCount st) -> vaultExists st vaultId = Err VaultNotFound.
Proof.
  intros Hout. rewrite vaultExists_cases.
  destruct ((0 <? vaultId) && (vaultId <=? vaultCount st)) eqn:E; [|reflexivity].
  apply andb_true_iff in E. lia.
Qed.

Lemma vaultExists_inactive (st : State) (vaultId : Z) :
  0 < vaultId <= vaultCount st -> isActive (vault_at st vaultId) = false ->
  vaultExists st vaultId = Err VaultInactive.
Proof.
  intros Hin Hoff. rewrite vaultExists_cases, Hoff.
  destruct ((0 <? vaultId) && (vaultId <=? vaultCount st)) eqn:E; [reflexivity|].
  apply andb_false_iff in E. lia.
Qed.

Lemma vaultExists_active (st : State) (vaultId : Z) :
  0 < vaultId <= vaultCount st -> isActive (vault_at st vaultId) = true ->
  vaultExists st vaultId = Ok tt.
Proof.
  intros Hin Hon. rewrite vaultExists_cases, Hon.
  destruct ((0 <? vaultId) && (vaultId <=? vaultCount st)) eqn:E; [reflexivity|].
  apply andb_false_iff in E. lia.
Qed.

(** ** The stage calculator *)

Lemma getCurrentStage_range (env : Env) (st : State) (vaultId S : Z) :
  _getCurrentStage env st vaultId = Ok S -> 0 <= S <= TOTAL_STAGES.
Proof.
  unfold _getCurrentStage, TOTAL_STAGES.
  destruct (emergencyUnlocked _); [intros [= <-]; lia|].
  destruct (_ <? _); [intros [= <-]; lia|].
  destruct (unlockMode _); [intros [= <-]; lia|].
  intros H. inv_bind H.
  apply checked_sub_Ok in Hstep as [-> Hle].
  apply checked_add_Ok in Hstep0 as [-> _].
  injection H as <-.
  assert (0 <= (block_timestamp env - firstUnlockTime (vault_at st vaultId)) / UNLOCK_INTERVAL)
    by (apply Z.div_pos; unfold UNLOCK_INTERVAL; lia).
  destruct (4 <? _) eqn:E; lia.
Qed.

(** C2. For every vault and every current time (both [uint256]), the stage
    calculator returns TOTAL_STAGES when the vault is emergency-unlocked,
    otherwise 0 before [firstUnlockTime], otherwise TOTAL_STAGES in ONE_TIME
    mode, otherwise min(TOTAL_STAGES, floor((now - firstUnlockTime) /
    STAGE_INTERVAL) + 1); TOTAL_STAGES is 4 and the interval is 365 days
    (31536000 seconds). *)
Theorem getCurrentStage_is_spec_stage (env : Env) (st : State) (vaultId : Z) :
  is_uint256 (block_timestamp env) ->
  is_uint256 (firstUnlockTime (vault_at st vaultId)) ->
  _getCurrentStage env st vaultId
    = Ok (spec_stage (block_timestamp env) (vault_at st vaultId))
  /\ TOTAL_STAGES = 4 /\ UNLOCK_INTERVAL = 31536000.
Proof.
  intros [Hnow0 Hnow] [Hfirst0 Hfirst].
  split; [|split; reflexivity].
  unfold _getCurrentStage, spec_stage.
  destruct (emergencyUnlocked _); [reflexivity|].
  destruct (_ <? _) eqn:Hbefore; [reflexivity|].
  destruct (unlockMode _); [reflexivity|].
  apply Z.ltb_ge in Hbefore.
  set (now := block_timestamp env) in *.
  set (first := firstUnlockTime (vault_at st vaultId)) in *.
  unfold checked_sub. replace (first <=? now) with true by lia. simpl.
  assert (Hq : 0 <= (now - first) / UNLOCK_INTERVAL)
    by (apply Z.div_pos; unfold UNLOCK_INTERVAL; lia).
  assert (Hub : (now - first) / UNLOCK_INTERVAL <= uint256_max - 1).
  { apply Z.div_le_upper_bound; [unfold UNLOCK_INTERVAL; lia|].
    pose proof uint256_max_large. unfold UNLOCK_INTERVAL. lia. }
  unfold checked_add.
  replace ((now - first) / UNLOCK_INTERVAL + 1 <=? uint256_max) with true by lia.
  simpl. f_equal. unfold TOTAL_STAGES.
  destruct (4 <? _) eqn:E; lia.
Qed.

Lemma getCurrentStage_is_spec_stage_witness :
  _getCurrentStage (scenario_env 9 0 (200 + 365 * 86400)) scenario_written 1 = Ok 2.
Proof.
  refine (eq_trans (proj1 (getCurrentStage_is_spec_stage
            (scenario_env 9 0 (200 + 365 * 86400)) scenario_written 1 _ _)) _).
  - unfold is_uint256; vm_compute; split; discriminate.
  - unfold is_uint256; vm_compute; split; discriminate.
  - vm_compute; reflexivity.
Defined.

(** ** What a successful call did *)

Lemma createVault_Ok (env : Env) (st : State) (t : Z) (mode : UnlockMode) (n : Z)
    (i : Z) (st' : State) (effs : list Effect) :
  createVault env st t mode n = Ok (i, st', effs) ->
  0 < msg_value env /\ block_timestamp env < t /\ 0 < n /\
  i = vaultCount st + 1 /\ i <= uint256_max /\
  vaults st' = <[i := mkVault i (msg_sender env) (msg_value env) t 0 false true n mode]>
                 (vaults st) /\
  vaultCount st' = i /\
  beneficiaries st' = beneficiaries st /\
  balance st' = balance st + msg_value env /\
  effs = [Emit (VaultCreated i (msg_sender env) (msg_value env) t)].
Proof.
  unfold createVault. intros H. inv_bind H.
  apply require_Ok in Hstep, Hstep0, Hstep1.
  apply checked_add_Ok in Hstep2 as [-> Hmax].
  injection H as <- <- <-. simpl.
  repeat split; try reflexivity; lia.
Qed.

Lemma addBeneficiary_Ok (env : Env) (st : State) (v i : Z) (a m : externalEuint128)
    (pa pm : bytes) (st' : State) (effs : list Effect) :
  addBeneficiary env st v i a m pa pm = Ok (st', effs) ->
  vaultExists st v = Ok tt /\
  creator (vault_at st v) = msg_sender env /\
  i < beneficiaryCount (vault_at st v) /\
  totalClaimed (beneficiary_at st v i) = 0 /\
  vaults st' = vaults st /\
  vaultCount st' = vaultCount st /\
  beneficiaries st' = <[(v, i) := mkBeneficiary a m 0]> (beneficiaries st) /\
  balance st' = balance st /\
  effs = [Emit (BeneficiaryAdded v i)].
Proof.
  unfold addBeneficiary, onlyCreator, FHE_fromExternal. intros H. inv_bind H.
  destruct a0. apply require_Ok in Hstep0, Hstep1, Hstep2.
  apply bool_decide_eq_true in Hstep0.
  destruct (input_verified env a pa); [|discriminate]. injection Hstep3 as <-.
  destruct (input_verified env m pm); [|discriminate]. injection Hstep4 as <-.
  injection H as <- <-. simpl.
  repeat split; try reflexivity; try assumption; lia.
Qed.

Lemma emergencyUnlock_Ok (env : Env) (st : State) (v : Z) (st' : State)
    (effs : list Effect) :
  emergencyUnlock env st v = Ok (st', effs) ->
  vaultExists st v = Ok tt /\
  creator (vault_at st v) = msg_sender env /\
  emergencyUnlocked (vault_at st v) = false /\
  vaults st' = <[v := with_stagesUnlocked TOTAL_STAGES
                        (with_emergencyUnlocked true (vault_at st v))]> (vaults st) /\
  vaultCount st' = vaultCount st /\
  beneficiaries st' = beneficiaries st /\
  balance st' = balance st /\
  effs = [Emit (EmergencyUnlock v (block_timestamp env))].
Proof.
  unfold emergencyUnlock, onlyCreator. intros H. inv_bind H.
  destruct a. apply require_Ok in Hstep0, Hstep1.
  apply bool_decide_eq_true in Hstep0. apply negb_true_iff in Hstep1.
  injection H as <- <-. simpl.
  repeat split; try reflexivity; try assumption.
  unfold vault_at at 1. simpl. rewrite lookup_insert_eq. simpl.
  apply insert_insert_eq.
Qed.

Lemma update_stages_frame (env : Env) (vaultId S : Z) (st : State) :
  let st1 := (update_stages env vaultId S st).1 in
  vaultCount st1 = vaultCount st /\ beneficiaries st1 = beneficiaries st /\
  balance st1 = balance st /\ beneficiaryVaults st1 = beneficiaryVaults st.
Proof.
  unfold update_stages. destruct (_ && _); simpl; repeat split; reflexivity.
Qed.

Lemma update_stages_no_transfer (env : Env) (vaultId S : Z) (st : State) :
  no_transfer (update_stages env vaultId S st).2.
Proof.
  unfold update_stages, no_transfer. intros r a.
  destruct (_ && _); simpl; [|apply not_elem_of_nil].
  intros Hin. apply list_elem_of_fmap in Hin as (i & Heq & _). discriminate.
Qed.

(** A successful claim, whatever the matching function: every test passed,
    the slot the matcher named grew by the amount the matcher computed, and
    that amount left the contract for the caller. *)
Lemma claimInheritance_with_Ok (find : Matcher) (env : Env) (st : State) (vaultId : Z)
    (st' : State) (effs : list Effect) :
  claimInheritance_with find env st vaultId = Ok (st', effs) ->
  exists S index amount,
    let st1 := (update_stages env vaultId S st).1 in
    vaultExists st vaultId = Ok tt /\
    _getCurrentStage env st vaultId = Ok S /\ 0 < S /\
    find env st1 vaultId (msg_sender env) = Ok (true, index, amount) /\
    0 < amount /\
    totalClaimed (beneficiary_at st1 vaultId index) + amount <= uint256_max /\
    amount <= balance st /\ accepts_value env (msg_sender env) amount = true /\
    vaults st' = vaults st1 /\
    vaultCount st' = vaultCount st /\
    beneficiaries st' =
      <[(vaultId, index) :=
          with_totalClaimed (totalClaimed (beneficiary_at st vaultId index) + amount)
                            (beneficiary_at st vaultId index)]> (beneficiaries st) /\
    balance st' = balance st - amount /\
    effs = (update_stages env vaultId S st).2 ++
           [Transfer (msg_sender env) amount;
            Emit (InheritanceClaimed vaultId (msg_sender env) amount
                    (stagesUnlocked (vault_at st1 vaultId)))].
Proof.
  unfold claimInheritance_with. intros H. inv_bind H.
  destruct a. rename a0 into S. apply require_Ok in Hstep1. exists S.
  pose proof (update_stages_frame env vaultId S st) as (Hcount & Hben & Hbal & _).
  destruct (update_stages env vaultId S st) as [st1 unlocked] eqn:Hupd.
  simpl in Hcount, Hben, Hbal.
  inv_bind H. destruct a as [[found index] amount]. inv_bind H.
  apply require_Ok in Hstep3, Hstep4. subst found.
  apply checked_add_Ok in Hstep5 as [-> Hmax].
  exists index, amount. simpl.
  assert (Hslot : beneficiary_at st1 vaultId index = beneficiary_at st vaultId index)
    by (unfold beneficiary_at; rewrite Hben; reflexivity).
  unfold call_value in H. simpl in H. rewrite Hbal in H.
  destruct (amount <=? balance st) eqn:Hfunds; simpl in H;
    [|discriminate].
  destruct (accepts_value env (msg_sender env) amount) eqn:Hacc; simpl in H;
    [|discriminate].
  injection H as <- <-.
  rewrite Hslot in *.
  repeat split; try assumption; try lia.
  - destruct (_ =? _); simpl; reflexivity.
  - destruct (_ =? _); simpl; assumption.
  - destruct (_ =? _); simpl; rewrite Hben; reflexivity.
  - destruct (_ =? _); simpl; reflexivity.
  - f_equal. f_equal. f_equal. f_equal. unfold vault_at.
    destruct (_ =? _); simpl; reflexivity.
Qed.

(** ** The vault table along transactions *)

Lemma vault_at_insert (st st' : State) (k : Z) (v : Vault) (j : Z) :
  vaults st' = <[k := v]> (vaults st) ->
  vault_at st' j = if decide (k = j) then v else vault_at st j.
Proof.
  intros Heq. unfold vault_at. rewrite Heq.
  destruct (decide (k = j)) as [->|Hne].
  - rewrite lookup_insert_eq. reflexivity.
  - rewrite lookup_insert_ne by assumption. reflexivity.
Qed.

Lemma execute_with_vault_write (find : Matcher) (env : Env) (c : Call)
    (st st' : State) (effs : list Effect) :
  execute_with find env c st = Ok (st', effs) ->
  vaultCount st <= vaultCount st' /\ vault_write_ok st st'.
Proof.
  intros H. destruct c as [t mode n|v i a m pa pm|v|v]; simpl in H.
  - inv_bind H. destruct a as [[i s] e]. injection H as <- <-. simpl.
    apply createVault_Ok in Hstep
      as (_ & _ & _ & Hi & _ & Hvaults & Hcount & _).
    split; [lia|]. right. eexists i, _. split; [exact Hvaults|].
    split; [lia|]. split; [|lia].
    intros [Hfresh _].
    unfold vault_at. rewrite (Hfresh i) by lia. simpl. unfold TOTAL_STAGES. lia.
  - inv_bind H. apply addBeneficiary_Ok in H as (_ & _ & _ & _ & Hvaults & Hcount & _).
    split; [lia|]. left. exact Hvaults.
  - inv_bind H.
    apply emergencyUnlock_Ok in H as (Hex & _ & _ & Hvaults & Hcount & _).
    apply vaultExists_Ok in Hex as [Hin _].
    split; [lia|]. right. eexists v, _. split; [exact Hvaults|].
    split; [lia|]. simpl. split; [|intros _; repeat split; reflexivity].
    intros [_ Hbound]. split; [apply Hbound | lia].
  - inv_bind H.
    apply claimInheritance_with_Ok in H
      as (S & index & amount & Hex & Hstage & HS & _ & _ & _ & _ & _ & Hvaults & Hcount & _).
    apply vaultExists_Ok in Hex as [Hin _].
    apply getCurrentStage_range in Hstage.
    split; [lia|]. simpl in Hvaults. unfold update_stages in Hvaults.
    destruct (_ && _) eqn:Hadvance; simpl in Hvaults; [|left; exact Hvaults].
    apply andb_true_iff in Hadvance as [Hlt _]. apply Z.ltb_lt in Hlt.
    right. eexists v, _. split; [exact Hvaults|].
    split; [lia|]. simpl. split; [lia|]. intros _. repeat split; auto.
Qed.

Lemma vault_write_ok_inv (st st' : State) :
  ledger_inv st -> vaultCount st <= vaultCount st' -> vault_write_ok st st' ->
  ledger_inv st' /\
  forall k, stagesUnlocked (vault_at st k) <= stagesUnlocked (vault_at st' k).
Proof.
  intros Hinv Hcount [Hsame|(k & v & Hvaults & Hk & Hstage & _)];
    pose proof Hinv as [Hfresh Hbound].
  - assert (Hat : forall j, vault_at st' j = vault_at st j)
      by (intros j; unfold vault_at; rewrite Hsame; reflexivity).
    split; [split|].
    + intros j Hj. rewrite Hsame. apply Hfresh. lia.
    + intros j. rewrite Hat. apply Hbound.
    + intros j. rewrite Hat. lia.
  - specialize (Hstage Hinv). split; [split|].
    + intros j Hj. rewrite Hvaults, lookup_insert_ne by lia. apply Hfresh. lia.
    + intros j. rewrite (vault_at_insert st st' k v j Hvaults).
      destruct (decide (k = j)); [lia | apply Hbound].
    + intros j. rewrite (vault_at_insert st st' k v j Hvaults).
      destruct (decide (k = j)) as [<-|]; lia.
Qed.

Lemma vault_write_ok_keeps_unlock (owner : address) (st st' : State) (vaultId : Z) :
  vaultCount st <= vaultCount st' -> vault_write_ok st st' ->
  emergency_unlocked_by owner st vaultId -> emergency_unlocked_by owner st' vaultId.
Proof.
  intros Hcount Hwrite (Hin & Hactive & Hcreator & Hunlocked).
  unfold emergency_unlocked_by.
  destruct Hwrite as [Hsame|(k & v & Hvaults & _ & _ & Hkeep)].
  - unfold vault_at. rewrite Hsame. fold (vault_at st vaultId).
    repeat split; try assumption; lia.
  - rewrite (vault_at_insert st st' k v vaultId Hvaults).
    destruct (decide (k = vaultId)) as [->|].
    + destruct Hkeep as (Hc & Ha & He); [lia|].
      rewrite Hc, Ha. repeat split; try assumption; try lia. apply He, Hunlocked.
    + repeat split; try assumption; lia.
Qed.

Lemma transact_with_cases (find : Matcher) (st : State) (tx : Env * Call) :
  (exists e, execute_with find tx.1 tx.2 st = Err e /\ transact_with find st tx = st) \/
  (exists effs, execute_with find tx.1 tx.2 st = Ok (transact_with find st tx, effs)).
Proof.
  unfold transact_with.
  destruct (execute_with find tx.1 tx.2 st) as [[st' effs]|e]; eauto.
Qed.

Lemma transact_with_inv (find : Matcher) (st : State) (tx : Env * Call) :
  ledger_inv st ->
  ledger_inv (transact_with find st tx) /\
  forall k, stagesUnlocked (vault_at st k)
            <= stagesUnlocked (vault_at (transact_with find st tx) k).
Proof.
  intros Hinv.
  destruct (transact_with_cases find st tx) as [(e & _ & ->)|(effs & Hok)].
  - split; [assumption | intros; lia].
  - apply execute_with_vault_write in Hok as [Hcount Hwrite].
    apply vault_write_ok_inv; assumption.
Qed.

Lemma initial_state_inv : ledger_inv initial_state.
Proof.
  split.
  - intros k _. apply lookup_empty.
  - intros k. unfold vault_at. simpl. rewrite lookup_empty. simpl.
    unfold TOTAL_STAGES. lia.
Qed.

Lemma run_with_inv (find : Matcher) (txs : list (Env * Call)) (st : State) :
  ledger_inv st ->
  ledger_inv (run_with find st txs) /\
  forall k, stagesUnlocked (vault_at st k)
            <= stagesUnlocked (vault_at (run_with find st txs) k).
Proof.
  revert st. induction txs as [|tx txs IH]; intros st Hinv.
  - split; [assumption | intros; simpl; lia].
  - change (run_with find st (tx :: txs))
      with (run_with find (transact_with find st tx) txs).
    destruct (transact_with_inv find st tx Hinv) as [Hinv1 Hmono1].
    destruct (IH _ Hinv1) as [Hinv2 Hmono2].
    split; [assumption|]. intros k. specialize (Hmono1 k). specialize (Hmono2 k).
    lia.
Qed.

(** C4. Along any sequence of transactions from the empty ledger (vault
    creations, slot writes, emergency unlocks, and claims with their stage
    recomputation, for the contract's matching function and for any other),
    the recorded [stagesUnlocked] of every vault never decreases and never
    exceeds TOTAL_STAGES. *)
Theorem stagesUnlocked_monotone_bounded (find : Matcher)
    (earlier later : list (Env * Call)) (vaultId : Z) :
  let before := run_with find initial_state earlier in
  let after := run_with find before later in
  stagesUnlocked (vault_at before vaultId) <= stagesUnlocked (vault_at after vaultId)
  /\ stagesUnlocked (vault_at after vaultId) <= TOTAL_STAGES
  /\ stagesUnlocked (vault_at (run initial_state earlier) vaultId)
     <= stagesUnlocked (vault_at (run (run initial_state earlier) later) vaultId)
     <= TOTAL_STAGES.
Proof.
  assert (Hgen : forall f : Matcher,
            stagesUnlocked (vault_at (run_with f initial_state earlier) vaultId)
            <= stagesUnlocked
                 (vault_at (run_with f (run_with f initial_state earlier) later) vaultId)
            <= TOTAL_STAGES).
  { intros f.
    destruct (run_with_inv f earlier initial_state initial_state_inv) as [Hinv _].
    destruct (run_with_inv f later _ Hinv) as [[_ Hbound] Hmono].
    split; [apply Hmono | apply Hbound]. }
  simpl. split; [apply Hgen|]. split; [apply Hgen|]. apply (Hgen _).
Qed.

(** ** The placeholder matching function *)

Lemma placeholder_result (env : Env) (st : State) (vaultId : Z) (who : address) :
  _findBeneficiaryAndCalculateClaim env st vaultId who
  = (S <- _getCurrentStage env st vaultId;; Ok (false, 0, 0)).
Proof.
  unfold _findBeneficiaryAndCalculateClaim.
  destruct (_getCurrentStage env st vaultId) as [S|e]; simpl; [|reflexivity].
  destruct (S =? 0); reflexivity.
Qed.

Lemma placeholder_no_match (env : Env) (st : State) (vaultId : Z) (who : address)
    (r : bool * Z * Z) :
  _findBeneficiaryAndCalculateClaim env st vaultId who = Ok r -> r = (false, 0, 0).
Proof.
  rewrite placeholder_result. intros H. inv_bind H. congruence.
Qed.

Lemma getCurrentStage_after_update (env : Env) (vaultId S : Z) (st : State) (j : Z) :
  _getCurrentStage env (update_stages env vaultId S st).1 j = _getCurrentStage env st j.
Proof.
  unfold update_stages. destruct (_ && _); simpl; [|reflexivity].
  unfold _getCurrentStage.
  rewrite (vault_at_insert st (set_vault vaultId _ st) vaultId _ j eq_refl).
  destruct (decide (vaultId = j)) as [<-|]; reflexivity.
Qed.

Lemma claimInheritance_fails (env : Env) (st : State) (vaultId : Z) :
  exists e, claimInheritance env st vaultId = Err e.
Proof.
  destruct (claimInheritance env st vaultId) as [[st' effs]|e] eqn:H; [|eauto].
  apply claimInheritance_with_Ok in H as (S & index & amount & _ & _ & _ & Hfind & _).
  apply placeholder_no_match in Hfind. discriminate.
Qed.

Lemma claimInheritance_not_a_beneficiary (env : Env) (st : State) (vaultId S : Z) :
  vaultExists st vaultId = Ok tt ->
  _getCurrentStage env st vaultId = Ok S -> 0 < S ->
  claimInheritance env st vaultId = Err NotABeneficiary.
Proof.
  intros Hex Hstage HS.
  unfold claimInheritance, claimInheritance_with. rewrite Hex, Hstage. simpl.
  replace (0 <? S) with true by lia. simpl.
  pose proof (getCurrentStage_after_update env vaultId S st vaultId) as Hsame.
  destruct (update_stages env vaultId S st) as [st1 unlocked]. simpl in Hsame.
  rewrite placeholder_result, Hsame, Hstage. reflexivity.
Qed.

Lemma transact_claim_unchanged (env : Env) (st : State) (vaultId : Z) :
  transact st (env, CallClaimInheritance vaultId) = st.
Proof.
  unfold transact, transact_with. simpl.
  destruct (nonpayable env); simpl; [|reflexivity].
  destruct (claimInheritance_fails env st vaultId) as [e He].
  unfold claimInheritance in He. rewrite He. reflexivity.
Qed.

Lemma checkInheritance_no_match (env : Env) (st : State) (vaultId : Z)
    (r : bool * Z * Z) :
  checkInheritance env st vaultId = Ok r -> r = (false, 0, 0).
Proof.
  unfold checkInheritance, checkInheritance_with. intros H. inv_bind H.
  apply placeholder_no_match in Hstep0. subst a0. simpl in H. congruence.
Qed.

(** ** Value and accumulators along transactions *)

Lemma beneficiary_at_insert (st st' : State) (k : Z * Z) (b : Beneficiary) (v i : Z) :
  beneficiaries st' = <[k := b]> (beneficiaries st) ->
  beneficiary_at st' v i = if decide (k = (v, i)) then b else beneficiary_at st v i.
Proof.
  intros Heq. unfold beneficiary_at. rewrite Heq.
  destruct (decide (k = (v, i))) as [->|Hne].
  - rewrite lookup_insert_eq. reflexivity.
  - rewrite lookup_insert_ne by assumption. reflexivity.
Qed.

Lemma execute_keeps_value (env : Env) (c : Call) (st st' : State) (effs : list Effect) :
  execute env c st = Ok (st', effs) ->
  no_transfer effs /\ balance st <= balance st' /\
  forall v i, totalClaimed (beneficiary_at st' v i) = totalClaimed (beneficiary_at st v i).
Proof.
  unfold execute. intros H.
  destruct c as [t mode n|v i a m pa pm|v|v]; simpl in H.
  - inv_bind H. destruct a as [[j s] e]. injection H as <- <-. simpl.
    apply createVault_Ok in Hstep
      as (Hval & _ & _ & _ & _ & _ & _ & Hben & Hbal & ->).
    split; [|split; [lia|]].
    + intros r x Hin. apply list_elem_of_singleton in Hin. discriminate.
    + intros v i. unfold beneficiary_at. rewrite Hben. reflexivity.
  - inv_bind H.
    apply addBeneficiary_Ok in H as (_ & _ & _ & Hzero & _ & _ & Hben & Hbal & ->).
    split; [|split; [lia|]].
    + intros r x Hin. apply list_elem_of_singleton in Hin. discriminate.
    + intros v' i'. rewrite (beneficiary_at_insert st st' _ _ v' i' Hben).
      destruct (decide ((v, i) = (v', i'))) as [[= <- <-]|]; [|reflexivity].
      simpl. symmetry. exact Hzero.
  - inv_bind H.
    apply emergencyUnlock_Ok in H as (_ & _ & _ & _ & _ & Hben & Hbal & ->).
    split; [|split; [lia|]].
    + intros r x Hin. apply list_elem_of_singleton in Hin. discriminate.
    + intros v' i'. unfold beneficiary_at. rewrite Hben. reflexivity.
  - inv_bind H. destruct (claimInheritance_fails env st v) as [e He].
    unfold claimInheritance in He. congruence.
Qed.

Lemma transact_keeps_value (st : State) (tx : Env * Call) :
  balance st <= balance (transact st tx) /\
  forall v i, totalClaimed (beneficiary_at (transact st tx) v i)
              = totalClaimed (beneficiary_at st v i).
Proof.
  destruct (transact_with_cases _findBeneficiaryAndCalculateClaim st tx)
    as [(e & _ & Hsame)|(effs & Hok)]; fold (transact st tx) in *.
  - rewrite Hsame. split; [lia | reflexivity].
  - apply execute_keeps_value in Hok as (_ & Hbal & Hclaimed). split; assumption.
Qed.

Lemma run_keeps_value (txs : list (Env * Call)) (st : State) :
  balance st <= balance (run st txs) /\
  forall v i, totalClaimed (beneficiary_at (run st txs) v i)
              = totalClaimed (beneficiary_at st v i).
Proof.
  revert st. induction txs as [|tx txs IH]; intros st.
  - split; [simpl; lia | reflexivity].
  - change (run st (tx :: txs)) with (run (transact st tx) txs).
    destruct (transact_keeps_value st tx) as [Hbal1 Hcl1].
    destruct (IH (transact st tx)) as [Hbal2 Hcl2].
    split; [lia|]. intros v i. rewrite Hcl2. apply Hcl1.
Qed.

(** ** Claims *)

(** C9. In this implementation no call of [claimInheritance] succeeds: the
    matching function never reports a match, so a call on an existing,
    active vault with a stage unlocked stops at "Not a beneficiary" and
    every other call stops earlier; no transaction transfers value out, the
    contract's balance never goes down, every slot's [totalClaimed] stays 0
    on every ledger reached from the empty one, and [checkInheritance]
    answers [isBeneficiary = false] whenever it answers. *)
Theorem no_claim_ever_succeeds :
  (forall env st vaultId who r,
     _findBeneficiaryAndCalculateClaim env st vaultId who = Ok r -> r = (false, 0, 0))
  /\ (forall env st vaultId, exists e, claimInheritance env st vaultId = Err e)
  /\ (forall env st vaultId S,
        vaultExists st vaultId = Ok tt ->
        _getCurrentStage env st vaultId = Ok S ->
        (forall who,
           _findBeneficiaryAndCalculateClaim env st vaultId who = Ok (false, 0, 0))
        /\ checkInheritance env st vaultId = Ok (false, 0, 0)
        /\ (0 < S -> claimInheritance env st vaultId = Err NotABeneficiary))
  /\ (forall env c st st' effs, execute env c st = Ok (st', effs) -> no_transfer effs)
  /\ (forall st txs, balance st <= balance (run st txs))
  /\ (forall txs v i, totalClaimed (beneficiary_at (run initial_state txs) v i) = 0)
  /\ (forall env st vaultId r,
        checkInheritance env st vaultId = Ok r -> r = (false, 0, 0)).
Proof.
  split; [exact placeholder_no_match|].
  split; [exact claimInheritance_fails|].
  split.
  { intros env st vaultId S Hex Hstage.
    assert (Hfind : forall who,
              _findBeneficiaryAndCalculateClaim env st vaultId who = Ok (false, 0, 0))
      by (intros who; rewrite placeholder_result, Hstage; reflexivity).
    split; [exact Hfind|]. split.
    - unfold checkInheritance, checkInheritance_with. rewrite Hex, Hfind. reflexivity.
    - apply claimInheritance_not_a_beneficiary; assumption. }
  split; [intros env c st st' effs H; apply (execute_keeps_value env c st st' effs H)|].
  split; [intros st txs; apply run_keeps_value|].
  split; [|exact checkInheritance_no_match].
  intros txs v i. destruct (run_keeps_value txs initial_state) as [_ Hclaimed].
  rewrite Hclaimed. unfold beneficiary_at. simpl. rewrite lookup_empty. reflexivity.
Qed.

Lemma no_claim_ever_succeeds_witness :
  _findBeneficiaryAndCalculateClaim (scenario_env 9 0 140) scenario_unlocked 1 9
  = Ok (false, 0, 0)
  /\ checkInheritance (scenario_env 9 0 140) scenario_unlocked 1 = Ok (false, 0, 0)
  /\ claimInheritance (scenario_env 9 0 140) scenario_unlocked 1 = Err NotABeneficiary.
Proof.
  destruct (proj1 (proj2 (proj2 no_claim_ever_succeeds))
              (scenario_env 9 0 140) scenario_unlocked 1 4)
    as (Hfind & Hcheck & Hclaim); [vm_compute; reflexivity | vm_compute; reflexivity|].
  split; [apply Hfind|]. split; [exact Hcheck|]. apply Hclaim. lia.
Defined.

Lemma no_match_no_entitlement (env : Env) (st : State) (vaultId : Z) (claimant : address) :
  matches_no_slot env st vaultId claimant = true ->
  spec_matchedEntitlement env st vaultId claimant = 0.
Proof.
  unfold matches_no_slot, spec_matchedEntitlement, sum_list.
  induction (slot_indices st vaultId) as [|i l IH]; intros H; [reflexivity|].
  cbn [forallb] in H. apply andb_true_iff in H as [Hi Hl]. apply negb_true_iff in Hi.
  rewrite fmap_cons. cbn [foldr]. rewrite Hi, (IH Hl). reflexivity.
Qed.

Lemma execute_stage_needs_emergency (env : Env) (c : Call) (st st' : State)
    (effs : list Effect) :
  stage_needs_emergency st -> execute env c st = Ok (st', effs) ->
  stage_needs_emergency st'.
Proof.
  unfold execute. intros Hinv H k.
  destruct c as [t mode n|v i a m pa pm|v|v]; simpl in H.
  - inv_bind H. destruct a as [[j s] e]. injection H as <- <-. simpl.
    apply createVault_Ok in Hstep as (_ & _ & _ & _ & _ & Hvaults & _).
    rewrite (vault_at_insert st s j _ k Hvaults).
    destruct (decide (j = k)); simpl; [congruence | apply Hinv].
  - inv_bind H. apply addBeneficiary_Ok in H as (_ & _ & _ & _ & Hvaults & _).
    unfold vault_at. rewrite Hvaults. apply Hinv.
  - inv_bind H. apply emergencyUnlock_Ok in H as (_ & _ & _ & Hvaults & _).
    rewrite (vault_at_insert st st' v _ k Hvaults).
    destruct (decide (v = k)); simpl; [reflexivity | apply Hinv].
  - inv_bind H. destruct (claimInheritance_fails env st v) as [e He].
    unfold claimInheritance in He. congruence.
Qed.

Lemma run_stage_needs_emergency (txs : list (Env * Call)) (st : State) :
  stage_needs_emergency st -> stage_needs_emergency (run st txs).
Proof.
  revert st. induction txs as [|tx txs IH]; intros st Hst; [exact Hst|].
  change (run st (tx :: txs)) with (run (transact st tx) txs). apply IH.
  destruct (transact_with_cases _findBeneficiaryAndCalculateClaim st tx)
    as [(e & _ & Hsame)|(effs & Hok)]; fold (transact st tx) in *.
  - rewrite Hsame. exact Hst.
  - exact (execute_stage_needs_emergency _ _ _ _ _ Hst Hok).
Qed.

Lemma reachable_recorded_stage_is_current (txs : list (Env * Call)) (env : Env)
    (vaultId : Z) :
  0 < stagesUnlocked (vault_at (run initial_state txs) vaultId) ->
  _getCurrentStage env (run initial_state txs) vaultId = Ok TOTAL_STAGES.
Proof.
  intros Hpos.
  assert (Hinit : stage_needs_emergency initial_state).
  { intros k. unfold vault_at. simpl. rewrite lookup_empty. simpl. congruence. }
  pose proof (run_stage_needs_emergency txs initial_state Hinit vaultId) as Hem.
  unfold _getCurrentStage. rewrite Hem by lia. reflexivity.
Qed.

(** C5, as the contract has it.  For every existing, active vault whose
    current stage is above 0 (on a ledger reached from the empty one: whose
    recorded [stagesUnlocked] is above 0) and every caller whose identity
    matches no written slot, the matched entitlement is 0, the matching
    function reports no match and a claimable amount of 0, and the claim
    stops at the revert "Not a beneficiary" (a failure distinct from
    NothingToClaim), leaving the ledger as it was and transferring
    nothing. *)
Theorem unmatched_claim_is_rejected :
  (forall env st vaultId S,
     vaultExists st vaultId = Ok tt ->
     _getCurrentStage env st vaultId = Ok S -> 0 < S ->
     matches_no_slot env st vaultId (msg_sender env) = true ->
     spec_matchedEntitlement env st vaultId (msg_sender env) = 0
     /\ _findBeneficiaryAndCalculateClaim env (update_stages env vaultId S st).1
          vaultId (msg_sender env) = Ok (false, 0, 0)
     /\ claimInheritance env st vaultId = Err NotABeneficiary
     /\ NotABeneficiary <> NothingToClaim
     /\ transact st (env, CallClaimInheritance vaultId) = st)
  /\ (forall txs env vaultId,
        vaultExists (run initial_state txs) vaultId = Ok tt ->
        0 < stagesUnlocked (vault_at (run initial_state txs) vaultId) ->
        matches_no_slot env (run initial_state txs) vaultId (msg_sender env) = true ->
        spec_matchedEntitlement env (run initial_state txs) vaultId (msg_sender env) = 0
        /\ claimInheritance env (run initial_state txs) vaultId = Err NotABeneficiary).
Proof.
  split.
  - intros env st vaultId S Hex Hstage HS Hnone.
    split; [apply no_match_no_entitlement; assumption|].
    split; [rewrite placeholder_result, getCurrentStage_after_update, Hstage; reflexivity|].
    split; [apply (claimInheritance_not_a_beneficiary env st vaultId S); assumption|].
    split; [discriminate | apply transact_claim_unchanged].
  - intros txs env vaultId Hex Hrecorded Hnone.
    split; [apply no_match_no_entitlement; assumption|].
    apply (claimInheritance_not_a_beneficiary env _ vaultId TOTAL_STAGES);
      [assumption | apply reachable_recorded_stage_is_current; assumption
      | unfold TOTAL_STAGES; lia].
Qed.

Lemma unmatched_claim_is_rejected_witness :
  claimInheritance (scenario_env 13 0 140) scenario_unlocked 1 = Err NotABeneficiary
  /\ claimInheritance (scenario_env 13 0 140)
       (run initial_state
          [(scenario_env 7 1000 100, CallCreateVault 200 STAGED 2);
           (scenario_env 7 0 130, CallEmergencyUnlock 1)]) 1 = Err NotABeneficiary.
Proof.
  split.
  - apply (proj1 unmatched_claim_is_rejected (scenario_env 13 0 140) scenario_unlocked 1 4);
      [vm_compute; reflexivity | vm_compute; reflexivity | lia | vm_compute; reflexivity].
  - apply (proj2 unmatched_claim_is_rejected
             [(scenario_env 7 1000 100, CallCreateVault 200 STAGED 2);
              (scenario_env 7 0 130, CallEmergencyUnlock 1)]
             (scenario_env 13 0 140) 1);
      [vm_compute; reflexivity | vm_compute; reflexivity | vm_compute; reflexivity].
Defined.

(** C5 as stated fails: address 13 matches no slot of the unlocked vault
    (matched entitlement 0, recorded stage 4), and its claim does not stop
    at NothingToClaim. *)
Lemma unmatched_claim_counterexample :
  vaultExists scenario_unlocked 1 = Ok tt
  /\ stagesUnlocked (vault_at scenario_unlocked 1) = 4
  /\ matches_no_slot (scenario_env 13 0 140) scenario_unlocked 1 13 = true
  /\ spec_matchedEntitlement (scenario_env 13 0 140) scenario_unlocked 1 13 = 0
  /\ claimInheritance (scenario_env 13 0 140) scenario_unlocked 1 <> Err NothingToClaim.
Proof.
  repeat split; try (vm_compute; reflexivity).
  vm_compute. discriminate.
Qed.

(** C1 does not hold of the contract.  Whenever the claim's formula gives
    the caller a positive amount on an existing, active vault with a stage
    unlocked (matchedEntitlement * S / TOTAL_STAGES - matchedAlreadyClaimed
    > 0), the contract pays nothing: [_findBeneficiaryAndCalculateClaim],
    documented to find the beneficiary and compute the claimable amount,
    reports (false, 0, 0); [checkInheritance] answers that the caller is no
    beneficiary; and [claimInheritance] reverts with "Not a beneficiary", so
    that no accumulator grows and no value is transferred. *)
Theorem entitled_claim_is_rejected (env : Env) (st : State) (vaultId S : Z) :
  vaultExists st vaultId = Ok tt ->
  _getCurrentStage env st vaultId = Ok S -> 0 < S ->
  0 < spec_claimable env st vaultId (msg_sender env) S ->
  _findBeneficiaryAndCalculateClaim env st vaultId (msg_sender env) = Ok (false, 0, 0)
  /\ checkInheritance env st vaultId = Ok (false, 0, 0)
  /\ claimInheritance env st vaultId = Err NotABeneficiary
  /\ transact st (env, CallClaimInheritance vaultId) = st
  /\ ~ (exists st' effs,
          claimInheritance env st vaultId = Ok (st', effs)
          /\ Transfer (msg_sender env)
               (spec_claimable env st vaultId (msg_sender env) S) ∈ effs).
Proof.
  intros Hex Hstage HS Hdue.
  assert (Hfind : forall who,
            _findBeneficiaryAndCalculateClaim env st vaultId who = Ok (false, 0, 0))
    by (intros who; rewrite placeholder_result, Hstage; reflexivity).
  split; [apply Hfind|]. split.
  { unfold checkInheritance, checkInheritance_with. rewrite Hex, Hfind. reflexivity. }
  split; [apply (claimInheritance_not_a_beneficiary env st vaultId S); assumption|].
  split; [apply transact_claim_unchanged|].
  intros (st' & effs & H & _).
  destruct (claimInheritance_fails env st vaultId) as [e He]. congruence.
Qed.

Lemma entitled_claim_is_rejected_witness :
  spec_matchedEntitlement (scenario_env 9 0 140) scenario_unlocked 1 9 = 600
  /\ spec_claimable (scenario_env 9 0 140) scenario_unlocked 1 9 4 = 600
  /\ 600 <= balance scenario_unlocked
  /\ _findBeneficiaryAndCalculateClaim (scenario_env 9 0 140) scenario_unlocked 1 9
     = Ok (false, 0, 0)
  /\ checkInheritance (scenario_env 9 0 140) scenario_unlocked 1 = Ok (false, 0, 0)
  /\ claimInheritance (scenario_env 9 0 140) scenario_unlocked 1 = Err NotABeneficiary
  /\ transact scenario_unlocked (scenario_env 9 0 140, CallClaimInheritance 1)
     = scenario_unlocked.
Proof.
  split; [vm_compute; reflexivity|]. split; [vm_compute; reflexivity|].
  split; [vm_compute; discriminate|].
  destruct (entitled_claim_is_rejected (scenario_env 9 0 140) scenario_unlocked 1 4)
    as (Hfind & Hcheck & Hclaim & Hsame & _);
    [vm_compute; reflexivity | vm_compute; reflexivity | lia | vm_compute; reflexivity|].
  split; [exact Hfind|]. split; [exact Hcheck|]. split; [exact Hclaim | exact Hsame].
Defined.

(** ** Emergency unlock *)

Lemma run_with_keeps_unlock (find : Matcher) (owner : address)
    (txs : list (Env * Call)) (st : State) (vaultId : Z) :
  emergency_unlocked_by owner st vaultId ->
  emergency_unlocked_by owner (run_with find st txs) vaultId.
Proof.
  revert st. induction txs as [|tx txs IH]; intros st Hst; [exact Hst|].
  change (run_with find st (tx :: txs))
    with (run_with find (transact_with find st tx) txs).
  apply IH.
  destruct (transact_with_cases find st tx) as [(e & _ & ->)|(effs & Hok)];
    [exact Hst|].
  apply execute_with_vault_write in Hok as [Hcount Hwrite].
  exact (vault_write_ok_keeps_unlock owner st _ vaultId Hcount Hwrite Hst).
Qed.






(** ** Failed claims *)

Section FailedClaim.

Variable find : Matcher.
Variables (env : Env) (st : State) (vaultId : Z).

Lemma claim_stage_not_ready :
  vaultExists st vaultId = Ok tt -> _getCurrentStage env st vaultId = Ok 0 ->
  claimInheritance_with find env st vaultId = Err StageNotReady.
Proof.
  intros Hex Hstage. unfold claimInheritance_with. rewrite Hex, Hstage. reflexivity.
Qed.

Variables (S index amount : Z).
Hypothesis Hex : vaultExists st vaultId = Ok tt.
Hypothesis Hstage : _getCurrentStage env st vaultId = Ok S.
Hypothesis HS : 0 < S.

Lemma claim_not_found :
  find env (update_stages env vaultId S st).1 vaultId (msg_sender env)
    = Ok (false, index, amount) ->
  claimInheritance_with find env st vaultId = Err NotABeneficiary.
Proof.
  intros Hfind. unfold claimInheritance_with. rewrite Hex, Hstage. simpl.
  replace (0 <? S) with true by lia. simpl.
  destruct (update_stages env vaultId S st) as [st1 unlocked]. simpl in Hfind.
  rewrite Hfind. reflexivity.
Qed.

Lemma claim_nothing_to_claim :
  find env (update_stages env vaultId S st).1 vaultId (msg_sender env)
    = Ok (true, index, amount) ->
  amount <= 0 ->
  claimInheritance_with find env st vaultId = Err NothingToClaim.
Proof.
  intros Hfind Hzero. unfold claimInheritance_with. rewrite Hex, Hstage. simpl.
  replace (0 <? S) with true by lia. simpl.
  destruct (update_stages env vaultId S st) as [st1 unlocked]. simpl in Hfind.
  rewrite Hfind. simpl. replace (0 <? amount) with false by lia. reflexivity.
Qed.

Lemma claim_transfer_failed :
  find env (update_stages env vaultId S st).1 vaultId (msg_sender env)
    = Ok (true, index, amount) ->
  0 < amount ->
  totalClaimed (beneficiary_at st vaultId index) + amount <= uint256_max ->
  balance st < amount \/ accepts_value env (msg_sender env) amount = false ->
  claimInheritance_with find env st vaultId = Err TransferFailed.
Proof.
  intros Hfind Hpos Hmax Hfail. unfold claimInheritance_with.
  rewrite Hex, Hstage. simpl. replace (0 <? S) with true by lia. simpl.
  pose proof (update_stages_frame env vaultId S st) as (_ & Hben & Hbal & _).
  destruct (update_stages env vaultId S st) as [st1 unlocked].
  simpl in Hfind, Hben, Hbal. rewrite Hfind. simpl.
  replace (0 <? amount) with true by lia. simpl.
  assert (Hslot : beneficiary_at st1 vaultId index = beneficiary_at st vaultId index)
    by (unfold beneficiary_at; rewrite Hben; reflexivity).
  rewrite Hslot. unfold checked_add.
  replace (_ + amount <=? uint256_max) with true by lia. simpl.
  unfold call_value. simpl. rewrite Hbal.
  destruct Hfail as [Hfunds|Hrefused].
  - replace (amount <=? balance st) with false by lia. reflexivity.
  - rewrite Hrefused, andb_false_r. reflexivity.
Qed.

End FailedClaim.

(** C8. Whenever a claim fails, the ledger after the transaction is the
    ledger before it, with [stagesUnlocked] and every [totalClaimed] as they
    were; and each listed condition does make the claim fail: vault not
    found, vault inactive, no stage unlocked, no matching beneficiary,
    nothing to claim, and a failed transfer.  This holds for the contract's
    matching function and for any other put in its place. *)
Theorem failed_claim_leaves_ledger_unchanged
    (find : Matcher) (env : Env) (st : State) (vaultId : Z) :
  (forall e, execute_with find env (CallClaimInheritance vaultId) st = Err e ->
     transact_with find st (env, CallClaimInheritance vaultId) = st)
  /\ (~ 0 < vaultId <= vaultCount st ->
        claimInheritance_with find env st vaultId = Err VaultNotFound)
  /\ (0 < vaultId <= vaultCount st -> isActive (vault_at st vaultId) = false ->
        claimInheritance_with find env st vaultId = Err VaultInactive)
  /\ (vaultExists st vaultId = Ok tt -> _getCurrentStage env st vaultId = Ok 0 ->
        claimInheritance_with find env st vaultId = Err StageNotReady)
  /\ (forall S index amount,
        vaultExists st vaultId = Ok tt -> _getCurrentStage env st vaultId = Ok S -> 0 < S ->
        find env (update_stages env vaultId S st).1 vaultId (msg_sender env)
          = Ok (false, index, amount) ->
        claimInheritance_with find env st vaultId = Err NotABeneficiary)
  /\ (forall S index amount,
        vaultExists st vaultId = Ok tt -> _getCurrentStage env st vaultId = Ok S -> 0 < S ->
        find env (update_stages env vaultId S st).1 vaultId (msg_sender env)
          = Ok (true, index, amount) ->
        amount <= 0 ->
        claimInheritance_with find env st vaultId = Err NothingToClaim)
  /\ (forall S index amount,
        vaultExists st vaultId = Ok tt -> _getCurrentStage env st vaultId = Ok S -> 0 < S ->
        find env (update_stages env vaultId S st).1 vaultId (msg_sender env)
          = Ok (true, index, amount) ->
        0 < amount ->
        totalClaimed (beneficiary_at st vaultId index) + amount <= uint256_max ->
        balance st < amount \/ accepts_value env (msg_sender env) amount = false ->
        claimInheritance_with find env st vaultId = Err TransferFailed)
  /\ transact st (env, CallClaimInheritance vaultId) = st.
Proof.
  split.
  { intros e He. unfold transact_with. cbn [fst snd]. rewrite He. reflexivity. }
  split.
  { intros Hout. unfold claimInheritance_with.
    rewrite (vaultExists_unassigned st vaultId Hout). reflexivity. }
  split.
  { intros Hin Hoff. unfold claimInheritance_with.
    rewrite (vaultExists_inactive st vaultId Hin Hoff). reflexivity. }
  split; [apply claim_stage_not_ready|].
  split; [intros S index amount; apply claim_not_found|].
  split; [intros S index amount; apply claim_nothing_to_claim|].
  split; [intros S index amount; apply claim_transfer_failed|].
  apply transact_claim_unchanged.
Qed.

Lemma failed_claim_leaves_ledger_unchanged_witness :
  claimInheritance_with spec_matcher (scenario_env_refusing 9 0 140) scenario_unlocked 1
  = Err TransferFailed
  /\ transact_with spec_matcher scenario_unlocked
       (scenario_env_refusing 9 0 140, CallClaimInheritance 1) = scenario_unlocked
  /\ claimInheritance_with spec_matcher (scenario_env 13 0 (200 + 365 * 86400))
       scenario_written 1 = Err NotABeneficiary
  /\ stagesUnlocked
       (vault_at (transact_with spec_matcher scenario_written
                    (scenario_env 13 0 (200 + 365 * 86400), CallClaimInheritance 1)) 1)
     = 0.
Proof.
  pose proof (failed_claim_leaves_ledger_unchanged spec_matcher
                (scenario_env_refusing 9 0 140) scenario_unlocked 1)
    as (Hroll & _ & _ & _ & _ & _ & Hfailed & _).
  pose proof (failed_claim_leaves_ledger_unchanged spec_matcher
                (scenario_env 13 0 (200 + 365 * 86400)) scenario_written 1)
    as (Hroll' & _ & _ & _ & Hnone & _).
  assert (H1 : claimInheritance_with spec_matcher (scenario_env_refusing 9 0 140)
                 scenario_unlocked 1 = Err TransferFailed).
  { apply (Hfailed 4 0 600);
      [vm_compute; reflexivity | vm_compute; reflexivity | lia | vm_compute; reflexivity
      | lia | vm_compute; discriminate | right; reflexivity]. }
  assert (H2 : claimInheritance_with spec_matcher (scenario_env 13 0 (200 + 365 * 86400))
                 scenario_written 1 = Err NotABeneficiary).
  { apply (Hnone 2 0 0);
      [vm_compute; reflexivity | vm_compute; reflexivity | lia | vm_compute; reflexivity]. }
  split; [exact H1|]. split.
  - apply (Hroll TransferFailed). simpl. exact H1.
  - split; [exact H2|]. rewrite (Hroll' NotABeneficiary); [vm_compute; reflexivity|].
    simpl. exact H2.
Defined.

(** ** Creating a vault *)

Lemma run_with_count (find : Matcher) (txs : list (Env * Call)) (st : State) :
  vaultCount st <= vaultCount (run_with find st txs).
Proof.
  revert st. induction txs as [|tx txs IH]; intros st; [simpl; lia|].
  change (run_with find st (tx :: txs))
    with (run_with find (transact_with find st tx) txs).
  specialize (IH (transact_with find st tx)).
  destruct (transact_with_cases find st tx) as [(e & _ & Hsame)|(effs & Hok)].
  - rewrite Hsame in *. exact IH.
  - apply execute_with_vault_write in Hok as [Hcount _]. lia.
Qed.

(** C6, as the contract has it.  The three checks run in order, so each
    failure is reported exactly when the earlier checks pass and its own
    fails: InvalidAmount exactly when the deposit is not positive,
    InvalidSchedule exactly when the deposit is positive and
    [firstUnlockTime] is not strictly in the future, InvalidSlotCount
    exactly when both hold and the slot count is 0.  Otherwise, as long as
    the vault counter is below 2^256 - 1, the call succeeds, returns the
    next id (the counter plus one), stores there a vault with
    [stagesUnlocked = 0], [emergencyUnlocked = false] and [isActive = true],
    touches no other vault and credits the deposit; on every ledger reached
    from the empty one that id is positive and unused. *)
Theorem createVault_outcome (env : Env) (st : State) (t : Z) (mode : UnlockMode) (n : Z) :
  0 <= n ->
  (createVault env st t mode n = Err InvalidAmount <-> msg_value env <= 0)
  /\ (createVault env st t mode n = Err InvalidSchedule <->
        0 < msg_value env /\ ~ block_timestamp env < t)
  /\ (createVault env st t mode n = Err InvalidSlotCount <->
        0 < msg_value env /\ block_timestamp env < t /\ n = 0)
  /\ (0 < msg_value env -> block_timestamp env < t -> 0 < n ->
      vaultCount st < uint256_max ->
      exists st' effs,
        createVault env st t mode n = Ok (vaultCount st + 1, st', effs)
        /\ vaultCount st' = vaultCount st + 1
        /\ vault_at st' (vaultCount st + 1)
           = mkVault (vaultCount st + 1) (msg_sender env) (msg_value env) t
                     0 false true n mode
        /\ (forall k, k <> vaultCount st + 1 -> vault_at st' k = vault_at st k)
        /\ balance st' = balance st + msg_value env)
  /\ (forall txs,
        0 < vaultCount (run initial_state txs) + 1
        /\ vaults (run initial_state txs) !! (vaultCount (run initial_state txs) + 1)
           = None).
Proof.
  intros Hn.
  assert (Hreach : forall txs,
            0 < vaultCount (run initial_state txs) + 1
            /\ vaults (run initial_state txs) !! (vaultCount (run initial_state txs) + 1)
               = None).
  { intros txs. unfold run.
    pose proof (run_with_count _findBeneficiaryAndCalculateClaim txs initial_state) as Hc.
    destruct (run_with_inv _findBeneficiaryAndCalculateClaim txs initial_state
                initial_state_inv) as [[Hfresh _] _].
    simpl in Hc. split; [lia | apply Hfresh; lia]. }
  unfold createVault, require, checked_add, InvalidAmount, InvalidSchedule,
    InvalidSlotCount.
  destruct (0 <? msg_value env) eqn:Hv;
    [apply Z.ltb_lt in Hv | apply Z.ltb_ge in Hv];
  (destruct (block_timestamp env <? t) eqn:Ht;
    [apply Z.ltb_lt in Ht | apply Z.ltb_ge in Ht]);
  (destruct (0 <? n) eqn:Hc;
    [apply Z.ltb_lt in Hc | apply Z.ltb_ge in Hc]);
  (destruct (vaultCount st + 1 <=? uint256_max) eqn:Hm;
    [apply Z.leb_le in Hm | apply Z.leb_gt in Hm]);
  simpl;
  (split; [split; [intros H; try discriminate H; lia | intros H; try reflexivity; lia]|]);
  (split; [split; [intros H; try discriminate H; lia | intros H; try reflexivity; lia]|]);
  (split; [split; [intros H; try discriminate H; lia | intros H; try reflexivity; lia]|]);
  (split; [|exact Hreach]);
  intros H1 H2 H3 H4; try lia.
  eexists _, _. split; [reflexivity|]. simpl. split; [reflexivity|].
  unfold vault_at. simpl. rewrite lookup_insert_eq. simpl.
  split; [reflexivity|]. split; [|reflexivity].
  intros k Hk. rewrite lookup_insert_ne by lia. reflexivity.
Qed.

Lemma createVault_outcome_witness :
  exists st' effs,
    createVault (scenario_env 7 1000 100) initial_state 200 STAGED 2 = Ok (0 + 1, st', effs)
    /\ vaultCount st' = 0 + 1
    /\ vault_at st' (0 + 1) = mkVault (0 + 1) 7 1000 200 0 false true 2 STAGED
    /\ (forall k, k <> 0 + 1 -> vault_at st' k = vault_at initial_state k)
    /\ balance st' = 0 + 1000.
Proof.
  apply (proj1 (proj2 (proj2 (proj2
           (createVault_outcome (scenario_env 7 1000 100) initial_state 200 STAGED 2
              ltac:(lia)))))).
  - simpl. lia.
  - simpl. lia.
  - lia.
  - simpl. pose proof uint256_max_large. lia.
Defined.

(** C6 as stated fails where two checks fail together: with no deposit and
    an unlock time already past, the call reports InvalidAmount, so
    "InvalidSchedule exactly when the unlock time is not strictly in the
    future" does not hold. *)
Lemma createVault_schedule_counterexample :
  createVault (scenario_env 7 0 100) initial_state 50 STAGED 2 = Err InvalidAmount
  /\ ~ (createVault (scenario_env 7 0 100) initial_state 50 STAGED 2 = Err InvalidSchedule
        <-> ~ block_timestamp (scenario_env 7 0 100) < 50).
Proof.
  split; [reflexivity|].
  intros [_ H].
  assert (Hpast : ~ block_timestamp (scenario_env 7 0 100) < 50) by (simpl; lia).
  specialize (H Hpast). discriminate H.
Qed.

(** ** The [vaultExists] guard *)

Lemma guarded_operations_fail (env : Env) (st : State) (vaultId : Z) (e : error) :
  vaultExists st vaultId = Err e ->
  getVault st vaultId = Err e
  /\ (forall i a m pa pm, addBeneficiary env st vaultId i a m pa pm = Err e)
  /\ emergencyUnlock env st vaultId = Err e
  /\ claimInheritance env st vaultId = Err e
  /\ checkInheritance env st vaultId = Err e
  /\ (forall i, getEncryptedBeneficiary env st vaultId i = Err e).
Proof.
  intros H.
  unfold getVault, addBeneficiary, emergencyUnlock, claimInheritance,
    claimInheritance_with, checkInheritance, checkInheritance_with,
    getEncryptedBeneficiary.
  rewrite H. simpl. repeat split; reflexivity.
Qed.

(** C10. [getVault] and every other function guarded by [vaultExists]
    ([addBeneficiary], [emergencyUnlock], [claimInheritance],
    [checkInheritance], [getEncryptedBeneficiary]) fail for an unassigned id
    (0, or above the number of vaults created) and also for an assigned id
    whose vault has [isActive = false]; what [getVault] returns is always
    the stored vault of an assigned id, with [isActive = true]. *)
Theorem vault_operations_need_active_vault (env : Env) (st : State) (vaultId : Z) :
  (~ 0 < vaultId <= vaultCount st ->
     getVault st vaultId = Err VaultNotFound
     /\ (forall i a m pa pm, addBeneficiary env st vaultId i a m pa pm = Err VaultNotFound)
     /\ emergencyUnlock env st vaultId = Err VaultNotFound
     /\ claimInheritance env st vaultId = Err VaultNotFound
     /\ checkInheritance env st vaultId = Err VaultNotFound
     /\ (forall i, getEncryptedBeneficiary env st vaultId i = Err VaultNotFound))
  /\ (0 < vaultId <= vaultCount st -> isActive (vault_at st vaultId) = false ->
        getVault st vaultId = Err VaultInactive
        /\ (forall i a m pa pm, addBeneficiary env st vaultId i a m pa pm = Err VaultInactive)
        /\ emergencyUnlock env st vaultId = Err VaultInactive
        /\ claimInheritance env st vaultId = Err VaultInactive
        /\ checkInheritance env st vaultId = Err VaultInactive
        /\ (forall i, getEncryptedBeneficiary env st vaultId i = Err VaultInactive))
  /\ (forall v, getVault st vaultId = Ok v ->
        v = vault_at st vaultId /\ 0 < vaultId <= vaultCount st /\ isActive v = true).
Proof.
  split; [|split].
  - intros Hout. apply guarded_operations_fail, vaultExists_unassigned, Hout.
  - intros Hin Hoff. apply guarded_operations_fail, vaultExists_inactive; assumption.
  - intros v H. unfold getVault in H. inv_bind H. destruct a.
    apply vaultExists_Ok in Hstep as [Hin Hactive]. injection H as <-. tauto.
Qed.

Lemma vault_operations_need_active_vault_witness :
  getVault scenario_inactive 1 = Err VaultInactive
  /\ getVault scenario_written 5 = Err VaultNotFound
  /\ isActive (vault_at scenario_written 1) = true.
Proof.
  split; [|split].
  - apply (proj1 (proj2 (vault_operations_need_active_vault
                           (scenario_env 7 0 140) scenario_inactive 1)));
      [vm_compute; split; [reflexivity | discriminate] | vm_compute; reflexivity].
  - apply (proj1 (vault_operations_need_active_vault
                    (scenario_env 7 0 140) scenario_written 5)).
    vm_compute. intros [_ H]. apply H. reflexivity.
  - apply (proj2 (proj2 (vault_operations_need_active_vault
                           (scenario_env 7 0 140) scenario_written 1))
             (vault_at scenario_written 1)).
    vm_compute. reflexivity.
Defined.

(** ** Writing a slot twice *)

(** C3 does not hold of the contract.  The guard of [addBeneficiary] tests
    [totalClaimed == 0], which a write leaves true: after a successful
    write of a slot, a second write of the same slot by the creator with
    accepted proofs succeeds as well and replaces both ciphertexts. *)
Theorem written_slot_is_overwritten
    (env env' : Env) (st st1 : State) (vaultId index : Z)
    (a m a' m' : externalEuint128) (pa pm pa' pm' : bytes) (effs : list Effect) :
  addBeneficiary env st vaultId index a m pa pm = Ok (st1, effs) ->
  msg_sender env' = msg_sender env ->
  input_verified env' a' pa' = true ->
  input_verified env' m' pm' = true ->
  beneficiary_at st1 vaultId index = mkBeneficiary a m 0
  /\ addBeneficiary env' st1 vaultId index a' m' pa' pm' <> Err DuplicateSlotWrite
  /\ exists st2,
       addBeneficiary env' st1 vaultId index a' m' pa' pm'
       = Ok (st2, [Emit (BeneficiaryAdded vaultId index)])
       /\ beneficiary_at st2 vaultId index = mkBeneficiary a' m' 0.
Proof.
  intros H Hsender Ha Hm.
  apply addBeneficiary_Ok in H
    as (Hex & Hcreator & Hindex & _ & Hvaults & Hcount & Hben & _).
  assert (Hslot : beneficiary_at st1 vaultId index = mkBeneficiary a m 0).
  { rewrite (beneficiary_at_insert st st1 _ _ vaultId index Hben).
    rewrite decide_True by reflexivity. reflexivity. }
  split; [exact Hslot|].
  assert (Hat : vault_at st1 vaultId = vault_at st vaultId)
    by (unfold vault_at; rewrite Hvaults; reflexivity).
  assert (Hex1 : vaultExists st1 vaultId = Ok tt).
  { apply vaultExists_Ok in Hex as [Hin Hactive].
    apply vaultExists_active; [lia | rewrite Hat; exact Hactive]. }
  unfold addBeneficiary, onlyCreator, FHE_fromExternal.
  rewrite Hex1, Hat, Hcreator, Hsender, Hslot, Ha, Hm. simpl.
  rewrite bool_decide_eq_true_2 by reflexivity. simpl.
  replace (index <? beneficiaryCount (vault_at st vaultId)) with true by lia. simpl.
  split; [discriminate|].
  eexists. split; [reflexivity|].
  unfold beneficiary_at. simpl. rewrite lookup_insert_eq. reflexivity.
Qed.

Lemma written_slot_is_overwritten_witness :
  beneficiary_at scenario_slot0 1 0 = mkBeneficiary 55 66 0
  /\ addBeneficiary (scenario_env 7 0 115) scenario_slot0 1 0 77 88 [] []
     <> Err DuplicateSlotWrite
  /\ exists st2,
       addBeneficiary (scenario_env 7 0 115) scenario_slot0 1 0 77 88 [] []
       = Ok (st2, [Emit (BeneficiaryAdded 1 0)])
       /\ beneficiary_at st2 1 0 = mkBeneficiary 77 88 0.
Proof.
  apply (written_slot_is_overwritten (scenario_env 7 0 110) (scenario_env 7 0 115)
           scenario_created scenario_slot0 1 0 55 66 77 88 [] [] [] []
           [Emit (BeneficiaryAdded 1 0)]);
    [vm_compute; reflexivity | reflexivity | reflexivity | reflexivity].
Defined.

(** * Further properties of the contract *)

(** ** The stage calculator over time *)

Lemma getCurrentStage_uint256 (env : Env) (st : State) (vaultId : Z) :
  is_uint256 (block_timestamp env) ->
  is_uint256 (firstUnlockTime (vault_at st vaultId)) ->
  _getCurrentStage env st vaultId
  = Ok (spec_stage (block_timestamp env) (vault_at st vaultId)).
Proof.
  intros [_ Hnow] [Hfirst _]. unfold _getCurrentStage, spec_stage.
  destruct (emergencyUnlocked _); [reflexivity|].
  destruct (_ <? _) eqn:Hbefore; [reflexivity|].
  destruct (unlockMode _); [reflexivity|].
  apply Z.ltb_ge in Hbefore.
  unfold checked_sub, checked_add.
  replace (firstUnlockTime (vault_at st vaultId) <=? block_timestamp env)
    with true by lia.
  simpl.
  assert (0 <= (block_timestamp env - firstUnlockTime (vault_at st vaultId))
               / UNLOCK_INTERVAL)
    by (apply Z.div_pos; unfold UNLOCK_INTERVAL; lia).
  assert ((block_timestamp env - firstUnlockTime (vault_at st vaultId))
          / UNLOCK_INTERVAL <= uint256_max - 1).
  { apply Z.div_le_upper_bound; [unfold UNLOCK_INTERVAL; lia|].
    pose proof uint256_max_large. unfold UNLOCK_INTERVAL. lia. }
  replace (_ / UNLOCK_INTERVAL + 1 <=? uint256_max) with true by lia.
  simpl. f_equal. unfold TOTAL_STAGES. destruct (4 <? _) eqn:E; lia.
Qed.

(** X1. The stage of a vault never goes back as time passes: at a later
    timestamp [_getCurrentStage] returns a stage at least as high. *)
Theorem getCurrentStage_monotone_in_time (env1 env2 : Env) (st : State) (vaultId : Z) :
  is_uint256 (block_timestamp env1) ->
  is_uint256 (block_timestamp env2) ->
  is_uint256 (firstUnlockTime (vault_at st vaultId)) ->
  block_timestamp env1 <= block_timestamp env2 ->
  exists s1 s2,
    _getCurrentStage env1 st vaultId = Ok s1
    /\ _getCurrentStage env2 st vaultId = Ok s2
    /\ s1 <= s2.
Proof.
  intros H1 H2 Hfirst Hle.
  rewrite (getCurrentStage_uint256 env1 st vaultId H1 Hfirst).
  rewrite (getCurrentStage_uint256 env2 st vaultId H2 Hfirst).
  eexists _, _. split; [reflexivity|]. split; [reflexivity|].
  unfold spec_stage, TOTAL_STAGES.
  destruct (emergencyUnlocked _); [lia|].
  destruct (block_timestamp env1 <? _) eqn:E1;
    destruct (block_timestamp env2 <? _) eqn:E2;
    try apply Z.ltb_lt in E1; try apply Z.ltb_ge in E1;
    try apply Z.ltb_lt in E2; try apply Z.ltb_ge in E2; try lia.
  - destruct (unlockMode _); [lia|].
    assert (0 <= (block_timestamp env2 - firstUnlockTime (vault_at st vaultId))
                 / UNLOCK_INTERVAL)
      by (apply Z.div_pos; unfold UNLOCK_INTERVAL; lia).
    lia.
  - destruct (unlockMode _); [lia|].
    assert ((block_timestamp env1 - firstUnlockTime (vault_at st vaultId))
            / UNLOCK_INTERVAL
            <= (block_timestamp env2 - firstUnlockTime (vault_at st vaultId))
               / UNLOCK_INTERVAL)
      by (apply Z.div_le_mono; unfold UNLOCK_INTERVAL; lia).
    lia.
Qed.

Lemma getCurrentStage_monotone_in_time_witness :
  exists s1 s2,
    _getCurrentStage (scenario_env 9 0 300) scenario_written 1 = Ok s1
    /\ _getCurrentStage (scenario_env 9 0 (200 + 2 * 365 * 86400)) scenario_written 1
       = Ok s2
    /\ s1 <= s2.
Proof.
  apply getCurrentStage_monotone_in_time;
    unfold is_uint256; vm_compute; try split; discriminate.
Defined.

(** X2. In a STAGED vault that is not emergency-unlocked, stage [k] (for
    [k] from 1 to TOTAL_STAGES) is reached exactly from
    [firstUnlockTime + (k - 1) * UNLOCK_INTERVAL] on: the first stage at the
    unlock time itself, the last one three intervals later. *)
Theorem staged_vault_reaches_stage (env : Env) (st : State) (vaultId k : Z) :
  is_uint256 (block_timestamp env) ->
  is_uint256 (firstUnlockTime (vault_at st vaultId)) ->
  emergencyUnlocked (vault_at st vaultId) = false ->
  unlockMode (vault_at st vaultId) = STAGED ->
  1 <= k <= TOTAL_STAGES ->
  exists s,
    _getCurrentStage env st vaultId = Ok s
    /\ (k <= s <->
        firstUnlockTime (vault_at st vaultId) + (k - 1) * UNLOCK_INTERVAL
        <= block_timestamp env).
Proof.
  intros Hnow Hfirst Hlocked Hmode Hk.
  rewrite (getCurrentStage_uint256 env st vaultId Hnow Hfirst).
  eexists. split; [reflexivity|].
  unfold spec_stage. rewrite Hlocked, Hmode.
  unfold TOTAL_STAGES, UNLOCK_INTERVAL in *.
  set (now := block_timestamp env) in *.
  set (first := firstUnlockTime (vault_at st vaultId)) in *.
  destruct (now <? first) eqn:E; [apply Z.ltb_lt in E; lia|].
  apply Z.ltb_ge in E.
  pose proof (Z.div_mod (now - first) (365 * 86400) ltac:(lia)) as Hdm.
  pose proof (Z.mod_pos_bound (now - first) (365 * 86400) ltac:(lia)) as Hmod.
  set (q := (now - first) / (365 * 86400)) in *.
  split; intros H; [|apply Z.min_glb; lia].
  assert (k <= q + 1) by lia. lia.
Qed.

Lemma staged_vault_reaches_stage_witness :
  exists s,
    _getCurrentStage (scenario_env 9 0 (200 + 3 * (365 * 86400))) scenario_written 1 = Ok s
    /\ (4 <= s <->
        firstUnlockTime (vault_at scenario_written 1) + (4 - 1) * UNLOCK_INTERVAL
        <= block_timestamp (scenario_env 9 0 (200 + 3 * (365 * 86400)))).
Proof.
  apply staged_vault_reaches_stage;
    try (unfold is_uint256; vm_compute; split; discriminate);
    vm_compute; reflexivity.
Defined.

(** ** The rest of the storage after a successful call *)

Lemma createVault_Ok_others (env : Env) (st : State) (t : Z) (mode : UnlockMode) (n : Z)
    (i : Z) (st' : State) (effs : list Effect) :
  createVault env st t mode n = Ok (i, st', effs) ->
  creatorVaults st'
  = <[msg_sender env := getCreatorVaults st (msg_sender env) ++ [i]]> (creatorVaults st)
  /\ beneficiaryVaults st' = beneficiaryVaults st
  /\ acl st' = acl st.
Proof.
  unfold createVault. intros H. inv_bind H. injection H as <- <- <-.
  simpl. repeat split; reflexivity.
Qed.

Lemma addBeneficiary_Ok_others (env : Env) (st : State) (v i : Z) (a m : externalEuint128)
    (pa pm : bytes) (st' : State) (effs : list Effect) :
  addBeneficiary env st v i a m pa pm = Ok (st', effs) ->
  input_verified env a pa = true /\ input_verified env m pm = true
  /\ creatorVaults st' = creatorVaults st
  /\ beneficiaryVaults st' = beneficiaryVaults st
  /\ acl st' = {[ (m, msg_sender env) ]} ∪ ({[ (a, msg_sender env) ]}
                 ∪ ({[ (m, this env) ]} ∪ ({[ (a, this env) ]} ∪ acl st))).
Proof.
  unfold addBeneficiary, FHE_fromExternal. intros H. inv_bind H.
  destruct (input_verified env a pa); [|discriminate]. injection Hstep3 as <-.
  destruct (input_verified env m pm); [|discriminate]. injection Hstep4 as <-.
  injection H as <- <-. simpl. repeat split; reflexivity.
Qed.

Lemma emergencyUnlock_Ok_others (env : Env) (st : State) (v : Z) (st' : State)
    (effs : list Effect) :
  emergencyUnlock env st v = Ok (st', effs) ->
  creatorVaults st' = creatorVaults st
  /\ beneficiaryVaults st' = beneficiaryVaults st
  /\ acl st' = acl st.
Proof.
  unfold emergencyUnlock. intros H. inv_bind H. injection H as <- <-.
  simpl. repeat split; reflexivity.
Qed.

Lemma update_stages_others (env : Env) (vaultId S : Z) (st : State) :
  creatorVaults (update_stages env vaultId S st).1 = creatorVaults st
  /\ acl (update_stages env vaultId S st).1 = acl st.
Proof.
  unfold update_stages. destruct (_ && _); simpl; split; reflexivity.
Qed.

Lemma claimInheritance_with_Ok_others (find : Matcher) (env : Env) (st : State)
    (vaultId : Z) (st' : State) (effs : list Effect) :
  claimInheritance_with find env st vaultId = Ok (st', effs) ->
  creatorVaults st' = creatorVaults st /\ acl st' = acl st.
Proof.
  unfold claimInheritance_with. intros H. inv_bind H.
  pose proof (update_stages_others env vaultId a0 st) as [Hcv Hacl].
  destruct (update_stages env vaultId a0 st) as [st1 unlocked]. simpl in Hcv, Hacl.
  inv_bind H. destruct a2 as [[found index] amount]. inv_bind H.
  unfold call_value in H. destruct (_ && _); simpl in H; [|discriminate].
  injection H as <- <-.
  destruct (_ =? _); simpl; split; assumption.
Qed.

(** Induction along a run of transactions. *)
Lemma run_with_invariant (find : Matcher) (P : State -> Prop) :
  (forall env c st st' effs,
     P st -> execute_with find env c st = Ok (st', effs) -> P st') ->
  forall txs st, P st -> P (run_with find st txs).
Proof.
  intros Hstep txs. induction txs as [|tx txs IH]; intros st Hst; [exact Hst|].
  change (run_with find st (tx :: txs))
    with (run_with find (transact_with find st tx) txs).
  apply IH.
  destruct (transact_with_cases find st tx) as [(e & _ & ->)|(effs & Hok)];
    [exact Hst|].
  exact (Hstep _ _ _ _ _ Hst Hok).
Qed.

(** ** Writing and reading a slot *)



(** X4. Decryption grants are never revoked and are handed out by slot
    writes only: a successful [addBeneficiary] grants the contract and the
    caller (the creator) on the two handles it stores, every grant a
    successful call adds is one of these four, and along any sequence of
    transactions the grant set only grows. *)
Theorem grants_only_grow_by_slot_writes (find : Matcher) :
  (forall env st v i a m pa pm st' effs,
     addBeneficiary env st v i a m pa pm = Ok (st', effs) ->
     (a, this env) ∈ acl st' /\ (m, this env) ∈ acl st'
     /\ (a, msg_sender env) ∈ acl st' /\ (m, msg_sender env) ∈ acl st')
  /\ (forall env c st st' effs,
        execute_with find env c st = Ok (st', effs) ->
        acl st ⊆ acl st'
        /\ forall h p,
             (h, p) ∈ acl st' ->
             (h, p) ∈ acl st
             \/ exists v i a m pa pm,
                  c = CallAddBeneficiary v i a m pa pm
                  /\ (h = a \/ h = m) /\ (p = this env \/ p = msg_sender env))
  /\ (forall txs st, acl st ⊆ acl (run_with find st txs)).
Proof.
  assert (Hstep : forall env c st st' effs,
            execute_with find env c st = Ok (st', effs) ->
            acl st ⊆ acl st'
            /\ forall h p,
                 (h, p) ∈ acl st' ->
                 (h, p) ∈ acl st
                 \/ exists v i a m pa pm,
                      c = CallAddBeneficiary v i a m pa pm
                      /\ (h = a \/ h = m) /\ (p = this env \/ p = msg_sender env)).
  { intros env c st st' effs H.
    destruct c as [t mode n|v i a m pa pm|v|v]; simpl in H; inv_bind H.
    - destruct a as [[j s] e]. injection H as <- <-. simpl.
      apply createVault_Ok_others in Hstep as (_ & _ & ->).
      split; [reflexivity | intros h p Hin; left; exact Hin].
    - apply addBeneficiary_Ok_others in H as (_ & _ & _ & _ & ->).
      split; [do 4 (etrans; [|apply union_subseteq_r]); reflexivity|].
      intros h p Hin.
      destruct (decide ((h, p) ∈ acl st)) as [|Hnew]; [left; assumption|].
      right. exists v, i, a, m, pa, pm. split; [reflexivity|].
      assert (Hcases : (h, p) = (m, msg_sender env) \/ (h, p) = (a, msg_sender env)
                       \/ (h, p) = (m, this env) \/ (h, p) = (a, this env))
        by (rewrite !elem_of_union, !elem_of_singleton in Hin; tauto).
      destruct Hcases as [[= -> ->]|[[= -> ->]|[[= -> ->]|[= -> ->]]]]; tauto.
    - apply emergencyUnlock_Ok_others in H as (_ & _ & ->).
      split; [reflexivity | intros h p Hin; left; exact Hin].
    - apply claimInheritance_with_Ok_others in H as (_ & ->).
      split; [reflexivity | intros h p Hin; left; exact Hin]. }
  split; [|split; [exact Hstep|]].
  - intros env st v i a m pa pm st' effs H.
    apply addBeneficiary_Ok_others in H as (_ & _ & _ & _ & ->).
    rewrite !elem_of_union, !elem_of_singleton. tauto.
  - intros txs st.
    apply (run_with_invariant find (fun s => acl st ⊆ acl s)); [|reflexivity].
    intros env c s s' effs Hs H. apply Hstep in H as [Hsub _].
    etrans; eassumption.
Qed.

Lemma grants_only_grow_by_slot_writes_witness :
  (55, 1000) ∈ acl scenario_slot0 /\ (66, 1000) ∈ acl scenario_slot0
  /\ (55, 7) ∈ acl scenario_slot0 /\ (66, 7) ∈ acl scenario_slot0.
Proof.
  apply (proj1 (grants_only_grow_by_slot_writes _findBeneficiaryAndCalculateClaim)
           (scenario_env 7 0 110) scenario_created 1 0 55 66 [] [] scenario_slot0
           [Emit (BeneficiaryAdded 1 0)]).
  vm_compute. reflexivity.
Defined.

(** X5. What [addBeneficiary] wrote, [getEncryptedBeneficiary] hands back,
    and to the creator only: after a successful write the creator reads
    exactly the two handles of that slot, any other caller is refused with
    "Not vault creator", and a slot of the vault that was never written
    reads as the pair of zero handles. *)
Theorem getEncryptedBeneficiary_reads_written_slot
    (env env' : Env) (st st' : State) (v i : Z) (a m : externalEuint128)
    (pa pm : bytes) (effs : list Effect) :
  addBeneficiary env st v i a m pa pm = Ok (st', effs) ->
  (msg_sender env' = msg_sender env ->
     getEncryptedBeneficiary env' st' v i = Ok (a, m))
  /\ (msg_sender env' <> msg_sender env ->
        forall j, getEncryptedBeneficiary env' st' v j = Err NotCreator)
  /\ (msg_sender env' = msg_sender env ->
        forall j, j <> i -> j < beneficiaryCount (vault_at st v) ->
                  beneficiaries st !! (v, j) = None ->
                  getEncryptedBeneficiary env' st' v j = Ok (0, 0)).
Proof.
  intros H.
  apply addBeneficiary_Ok in H
    as (Hex & Hcreator & Hindex & _ & Hvaults & Hcount & Hben & _).
  assert (Hat : vault_at st' v = vault_at st v)
    by (unfold vault_at; rewrite Hvaults; reflexivity).
  assert (Hex' : vaultExists st' v = Ok tt).
  { apply vaultExists_Ok in Hex as [Hin Hactive].
    apply vaultExists_active; [lia | rewrite Hat; exact Hactive]. }
  unfold getEncryptedBeneficiary, onlyCreator. rewrite Hex', Hat, Hcreator. simpl.
  split; [|split].
  - intros ->. rewrite bool_decide_eq_true_2 by reflexivity. simpl.
    replace (i <? beneficiaryCount (vault_at st v)) with true by lia. simpl.
    rewrite (beneficiary_at_insert st st' _ _ v i Hben).
    rewrite decide_True by reflexivity. reflexivity.
  - intros Hother j. rewrite bool_decide_eq_false_2 by congruence. reflexivity.
  - intros -> j Hj Hrange Hnone. rewrite bool_decide_eq_true_2 by reflexivity. simpl.
    replace (j <? beneficiaryCount (vault_at st v)) with true by lia. simpl.
    rewrite (beneficiary_at_insert st st' _ _ v j Hben).
    rewrite decide_False by congruence.
    unfold beneficiary_at. rewrite Hnone. reflexivity.
Qed.

Lemma getEncryptedBeneficiary_reads_written_slot_witness :
  getEncryptedBeneficiary (scenario_env 7 0 115) scenario_slot0 1 0 = Ok (55, 66)
  /\ getEncryptedBeneficiary (scenario_env 13 0 115) scenario_slot0 1 0 = Err NotCreator
  /\ getEncryptedBeneficiary (scenario_env 7 0 115) scenario_slot0 1 1 = Ok (0, 0).
Proof.
  assert (H : addBeneficiary (scenario_env 7 0 110) scenario_created 1 0 55 66 [] []
              = Ok (scenario_slot0, [Emit (BeneficiaryAdded 1 0)]))
    by (vm_compute; reflexivity).
  split; [|split].
  - apply (proj1 (getEncryptedBeneficiary_reads_written_slot
                    _ (scenario_env 7 0 115) _ _ _ _ _ _ _ _ _ H)).
    reflexivity.
  - apply (proj1 (proj2 (getEncryptedBeneficiary_reads_written_slot
                           _ (scenario_env 13 0 115) _ _ _ _ _ _ _ _ _ H))).
    vm_compute. discriminate.
  - apply (proj2 (proj2 (getEncryptedBeneficiary_reads_written_slot
                           _ (scenario_env 7 0 115) _ _ _ _ _ _ _ _ _ H)));
      [reflexivity | discriminate | vm_compute; reflexivity | vm_compute; reflexivity].
Defined.

(** ** The vault table of a ledger built by the contract *)

Lemma seqZ_snoc (n : Z) : 0 <= n -> seqZ 1 (n + 1) = seqZ 1 n ++ [n + 1].
Proof.
  intros Hn. rewrite seqZ_app by lia. f_equal.
  rewrite seqZ_cons by lia. rewrite seqZ_nil by lia. f_equal. lia.
Qed.

Lemma filter_ext_elem {A} (P Q : A -> Prop) `{!forall x, Decision (P x)}
    `{!forall x, Decision (Q x)} (l : list A) :
  (forall x, x ∈ l -> (P x <-> Q x)) -> filter P l = filter Q l.
Proof.
  induction l as [|x l IH]; intros Hext; [reflexivity|].
  rewrite !filter_cons.
  rewrite IH by (intros y Hy; apply Hext; right; exact Hy).
  destruct (decide (P x)) as [HP|HP], (decide (Q x)) as [HQ|HQ]; try reflexivity.
  - exfalso. apply HQ. apply (Hext x); [left | exact HP].
  - exfalso. apply HP. apply (Hext x); [left | exact HQ].
Qed.

Lemma sum_list_app (l1 l2 : list Z) : sum_list (l1 ++ l2) = sum_list l1 + sum_list l2.
Proof.
  unfold sum_list. induction l1 as [|x l1 IH]; simpl; [reflexivity|]. rewrite IH. lia.
Qed.

Lemma same_terms_refl (v : Vault) : same_terms v v.
Proof. unfold same_terms. tauto. Qed.

Lemma same_terms_trans (u v w : Vault) : same_terms u v -> same_terms v w -> same_terms u w.
Proof.
  unfold same_terms.
  intros (? & ? & ? & ? & ? & ? & ?) (? & ? & ? & ? & ? & ? & ?).
  repeat split; congruence.
Qed.

(** A write of unlock progress into an existing vault. *)
Lemma progress_write_keeps_terms (st st' : State) (v : Z) (w : Vault) :
  vaults st' = <[v := w]> (vaults st) ->
  same_terms (vault_at st v) w ->
  isActive (vault_at st v) = true ->
  (forall k, same_terms (vault_at st k) (vault_at st' k))
  /\ (forall k, vaults st !! k = None -> vaults st' !! k = None).
Proof.
  intros Hvaults Hterms Hactive. split.
  - intros k. rewrite (vault_at_insert st st' v w k Hvaults).
    destruct (decide (v = k)) as [<-|]; [exact Hterms | apply same_terms_refl].
  - intros k Hnone. rewrite Hvaults.
    destruct (decide (v = k)) as [<-|Hne].
    + unfold vault_at in Hactive. rewrite Hnone in Hactive. discriminate.
    + rewrite lookup_insert_ne by assumption. exact Hnone.
Qed.

(** Every successful call either creates the next vault or keeps the table
    as it is up to unlock progress. *)
Lemma execute_with_table_step (find : Matcher) (env : Env) (c : Call)
    (st st' : State) (effs : list Effect) :
  execute_with find env c st = Ok (st', effs) ->
  (deposit_of env c = 0
   /\ vaultCount st' = vaultCount st
   /\ creatorVaults st' = creatorVaults st
   /\ (forall k, same_terms (vault_at st k) (vault_at st' k))
   /\ (forall k, vaults st !! k = None -> vaults st' !! k = None))
  \/ (exists t mode n,
        c = CallCreateVault t mode n
        /\ 0 < msg_value env /\ 0 < n
        /\ vaultCount st' = vaultCount st + 1
        /\ vaults st'
           = <[vaultCount st + 1 :=
                 mkVault (vaultCount st + 1) (msg_sender env) (msg_value env) t
                         0 false true n mode]> (vaults st)
        /\ creatorVaults st'
           = <[msg_sender env :=
                 getCreatorVaults st (msg_sender env) ++ [vaultCount st + 1]]>
               (creatorVaults st)).
Proof.
  intros H. destruct c as [t mode n|v i a m pa pm|v|v]; simpl in H; inv_bind H.
  - destruct a as [[j s] e]. injection H as <- <-. simpl. right.
    pose proof (createVault_Ok_others _ _ _ _ _ _ _ _ Hstep) as (Hcv & _).
    apply createVault_Ok in Hstep as (Hval & _ & Hn & -> & _ & Hvaults & Hcount & _).
    exists t, mode, n. repeat split; assumption.
  - left.
    pose proof (addBeneficiary_Ok_others _ _ _ _ _ _ _ _ _ _ H) as (_ & _ & Hcv & _).
    apply addBeneficiary_Ok in H as (_ & _ & _ & _ & Hvaults & Hcount & _).
    split; [reflexivity|]. split; [assumption|]. split; [assumption|].
    split; intros k; [|rewrite Hvaults; tauto].
    unfold vault_at. rewrite Hvaults. apply same_terms_refl.
  - left.
    pose proof (emergencyUnlock_Ok_others _ _ _ _ _ H) as (Hcv & _).
    apply emergencyUnlock_Ok in H as (Hex & _ & _ & Hvaults & Hcount & _).
    apply vaultExists_Ok in Hex as [_ Hactive].
    split; [reflexivity|]. split; [assumption|]. split; [assumption|].
    apply (progress_write_keeps_terms st st' v _ Hvaults); [|assumption].
    unfold same_terms. simpl. tauto.
  - left.
    pose proof (claimInheritance_with_Ok_others _ _ _ _ _ _ H) as (Hcv & _).
    apply claimInheritance_with_Ok in H
      as (S & index & amount & Hex & _ & _ & _ & _ & _ & _ & _ & Hvaults & Hcount & _).
    apply vaultExists_Ok in Hex as [_ Hactive].
    split; [reflexivity|]. split; [assumption|]. split; [assumption|].
    simpl in Hvaults. unfold update_stages in Hvaults.
    destruct (_ && _); simpl in Hvaults.
    + apply (progress_write_keeps_terms st st' v _ Hvaults); [|assumption].
      unfold same_terms. simpl. tauto.
    + split; intros k; [|rewrite Hvaults; tauto].
      unfold vault_at. rewrite Hvaults. apply same_terms_refl.
Qed.

Lemma execute_with_keeps_table (find : Matcher) (env : Env) (c : Call)
    (st st' : State) (effs : list Effect) :
  vault_table_ok st -> execute_with find env c st = Ok (st', effs) ->
  vault_table_ok st'.
Proof.
  intros (Hcount0 & Hnone & Hwf & Hlists) H.
  apply execute_with_table_step in H
    as [(_ & Hcount & Hcv & Hterms & Hkeep)
       |(t & mode & n & _ & Hval & Hn & Hcount & Hvaults & Hcv)].
  - unfold vault_table_ok. rewrite Hcount.
    split; [assumption|]. split; [intros k Hk; apply Hkeep, Hnone, Hk|].
    split.
    + intros k Hk. destruct (Hterms k) as (Hid & _ & Hamt & _ & Hact & Hslots & _).
      rewrite <- Hid, <- Hamt, <- Hact, <- Hslots. apply Hwf, Hk.
    + intros who. unfold getCreatorVaults, vaults_created_by.
      rewrite Hcv, Hcount.
      change (default [] (creatorVaults st !! who)) with (getCreatorVaults st who).
      rewrite Hlists. unfold vaults_created_by.
      apply list_filter_iff. intros k.
      destruct (Hterms k) as (_ & Hcreator & _). rewrite Hcreator. tauto.
  - set (i := vaultCount st + 1) in *.
    assert (Hat : forall k, vault_at st' k
                            = if decide (i = k)
                              then mkVault i (msg_sender env) (msg_value env) t
                                           0 false true n mode
                              else vault_at st k)
      by (intros k; apply vault_at_insert; exact Hvaults).
    unfold vault_table_ok. rewrite Hcount.
    split; [lia|]. split.
    { intros k Hk. rewrite Hvaults, lookup_insert_ne by lia. apply Hnone. lia. }
    split.
    { intros k Hk. rewrite Hat. destruct (decide (i = k)) as [<-|Hne].
      - simpl. repeat split; assumption.
      - apply Hwf. lia. }
    intros who. unfold getCreatorVaults, vaults_created_by.
    assert (Hseq : seqZ 1 i = seqZ 1 (vaultCount st) ++ [i])
      by (apply seqZ_snoc; assumption).
    rewrite Hcv, Hcount, Hseq, filter_app.
    assert (Hold : filter (fun k => creator (vault_at st' k) = who)
                     (seqZ 1 (vaultCount st))
                   = vaults_created_by st who).
    { unfold vaults_created_by. apply filter_ext_elem. intros k Hk.
      apply elem_of_seqZ in Hk. rewrite Hat, decide_False by lia. tauto. }
    assert (Hnew : creator (vault_at st' i) = msg_sender env)
      by (rewrite Hat, decide_True by reflexivity; reflexivity).
    rewrite Hold, <- Hlists, filter_cons, filter_nil, Hnew.
    unfold getCreatorVaults.
    destruct (decide (msg_sender env = who)) as [->|Hne].
    + rewrite lookup_insert_eq. reflexivity.
    + rewrite lookup_insert_ne by assumption. rewrite app_nil_r. reflexivity.
Qed.

Lemma initial_state_table_ok : vault_table_ok initial_state.
Proof.
  unfold vault_table_ok. simpl. split; [lia|].
  split; [intros; apply lookup_empty|]. split; [intros k Hk; lia|].
  intros who. unfold getCreatorVaults, vaults_created_by. simpl.
  rewrite lookup_empty. reflexivity.
Qed.

Lemma run_with_table_ok (find : Matcher) (txs : list (Env * Call)) (st : State) :
  vault_table_ok st -> vault_table_ok (run_with find st txs).
Proof.
  apply (run_with_invariant find vault_table_ok).
  intros env c s s' effs Hs H. exact (execute_with_keeps_table find env c s s' effs Hs H).
Qed.

Lemma run_with_keeps_terms (find : Matcher) (txs : list (Env * Call)) (st : State) :
  vaultCount st <= vaultCount (run_with find st txs)
  /\ forall k, k <= vaultCount st ->
               same_terms (vault_at st k) (vault_at (run_with find st txs) k).
Proof.
  apply (run_with_invariant find
           (fun s => vaultCount st <= vaultCount s
                     /\ forall k, k <= vaultCount st ->
                                  same_terms (vault_at st k) (vault_at s k))).
  - intros env c s s' effs [Hcount Hterms] H.
    apply execute_with_table_step in H
      as [(_ & Hc & _ & Hstep & _)|(t & mode & n & _ & _ & _ & Hc & Hvaults & _)].
    + split; [lia|]. intros k Hk.
      exact (same_terms_trans _ _ _ (Hterms k Hk) (Hstep k)).
    + split; [lia|]. intros k Hk.
      rewrite (vault_at_insert s s' _ _ k Hvaults), decide_False by lia.
      apply Hterms, Hk.
  - split; [lia | intros; apply same_terms_refl].
Qed.

(** X6. The terms of a vault are fixed at creation: along any sequence of
    transactions (with any matching function) an assigned vault keeps its
    id, creator, deposit, first unlock time, active flag, slot count and
    unlock mode; only its unlock progress can change. *)
Theorem vault_terms_never_change (find : Matcher) (txs : list (Env * Call))
    (st : State) (k : Z) :
  0 < k <= vaultCount st ->
  0 < k <= vaultCount (run_with find st txs)
  /\ same_terms (vault_at st k) (vault_at (run_with find st txs) k).
Proof.
  intros Hk. destruct (run_with_keeps_terms find txs st) as [Hcount Hterms].
  split; [lia | apply Hterms; lia].
Qed.

Lemma vault_terms_never_change_witness :
  same_terms (vault_at scenario_created 1) (vault_at scenario_unlocked 1).
Proof.
  apply (vault_terms_never_change _findBeneficiaryAndCalculateClaim
           [(scenario_env 7 0 110, CallAddBeneficiary 1 0 55 66 [] []);
            (scenario_env 7 0 120, CallAddBeneficiary 1 1 57 68 [] []);
            (scenario_env 7 0 130, CallEmergencyUnlock 1)]
           scenario_created 1).
  vm_compute. split; [reflexivity | discriminate].
Defined.

(** X7. On every ledger the contract can reach from the empty one, the ids
    1 .. [vaultCount] are exactly the vaults [getVault] returns: each is
    stored under its own id, active, with a positive deposit and at least
    one slot; any other id is refused with "Vault does not exist" and holds
    the zero vault.  No vault is ever deactivated, so [getVault] never
    fails with "Vault is not active". *)
Theorem reachable_vaults_are_readable (find : Matcher) (txs : list (Env * Call)) (k : Z) :
  (0 < k <= vaultCount (run_with find initial_state txs) ->
     getVault (run_with find initial_state txs) k
     = Ok (vault_at (run_with find initial_state txs) k)
     /\ id (vault_at (run_with find initial_state txs) k) = k
     /\ isActive (vault_at (run_with find initial_state txs) k) = true
     /\ 0 < totalAmount (vault_at (run_with find initial_state txs) k)
     /\ 0 < beneficiaryCount (vault_at (run_with find initial_state txs) k))
  /\ (~ 0 < k <= vaultCount (run_with find initial_state txs) ->
        getVault (run_with find initial_state txs) k = Err VaultNotFound
        /\ vault_at (run_with find initial_state txs) k = zero_vault)
  /\ getVault (run_with find initial_state txs) k <> Err VaultInactive.
Proof.
  destruct (run_with_table_ok find txs initial_state initial_state_table_ok)
    as (_ & Hnone & Hwf & _).
  set (st := run_with find initial_state txs) in *.
  assert (Hin : 0 < k <= vaultCount st ->
                getVault st k = Ok (vault_at st k)
                /\ id (vault_at st k) = k /\ isActive (vault_at st k) = true
                /\ 0 < totalAmount (vault_at st k)
                /\ 0 < beneficiaryCount (vault_at st k)).
  { intros Hk. destruct (Hwf k Hk) as (Hid & Hactive & Hamt & Hslots).
    unfold getVault. rewrite (vaultExists_active st k Hk Hactive). tauto. }
  assert (Hout : ~ 0 < k <= vaultCount st ->
                 getVault st k = Err VaultNotFound /\ vault_at st k = zero_vault).
  { intros Hk. unfold getVault. rewrite (vaultExists_unassigned st k Hk).
    split; [reflexivity|]. unfold vault_at. rewrite (Hnone k Hk). reflexivity. }
  split; [exact Hin|]. split; [exact Hout|].
  destruct (decide (0 < k <= vaultCount st)) as [Hk|Hk].
  - destruct (Hin Hk) as [-> _]. discriminate.
  - destruct (Hout Hk) as [-> _]. discriminate.
Qed.

Lemma reachable_vaults_are_readable_witness :
  getVault scenario_unlocked 1 = Ok (vault_at scenario_unlocked 1)
  /\ getVault scenario_unlocked 2 = Err VaultNotFound.
Proof.
  split.
  - apply (proj1 (reachable_vaults_are_readable _findBeneficiaryAndCalculateClaim
                    [(scenario_env 7 1000 100, CallCreateVault 200 STAGED 2);
                     (scenario_env 7 0 110, CallAddBeneficiary 1 0 55 66 [] []);
                     (scenario_env 7 0 120, CallAddBeneficiary 1 1 57 68 [] []);
                     (scenario_env 7 0 130, CallEmergencyUnlock 1)] 1)).
    vm_compute. split; [reflexivity | discriminate].
  - apply (proj1 (proj2 (reachable_vaults_are_readable
                           _findBeneficiaryAndCalculateClaim
                           [(scenario_env 7 1000 100, CallCreateVault 200 STAGED 2);
                            (scenario_env 7 0 110, CallAddBeneficiary 1 0 55 66 [] []);
                            (scenario_env 7 0 120, CallAddBeneficiary 1 1 57 68 [] []);
                            (scenario_env 7 0 130, CallEmergencyUnlock 1)] 2))).
    vm_compute. intros [_ H]. apply H. reflexivity.
Defined.

(** X8. On every reachable ledger [getCreatorVaults] lists, for each
    address, exactly the vaults that address created, each once and in
    order of creation. *)
Theorem creator_lists_are_exact (find : Matcher) (txs : list (Env * Call))
    (who : address) :
  getCreatorVaults (run_with find initial_state txs) who
  = vaults_created_by (run_with find initial_state txs) who
  /\ (forall k, k ∈ getCreatorVaults (run_with find initial_state txs) who <->
                0 < k <= vaultCount (run_with find initial_state txs)
                /\ creator (vault_at (run_with find initial_state txs) k) = who)
  /\ NoDup (getCreatorVaults (run_with find initial_state txs) who).
Proof.
  destruct (run_with_table_ok find txs initial_state initial_state_table_ok)
    as (_ & _ & _ & Hlists).
  rewrite Hlists. unfold vaults_created_by. split; [reflexivity|]. split.
  - intros k. rewrite list_elem_of_filter, elem_of_seqZ. split; intros [? ?]; split;
      try assumption; lia.
  - apply NoDup_filter, NoDup_seqZ.
Qed.

Lemma omap_fmap_elem {A B} (f : A -> option B) (g : A -> B) (l : list A) :
  (forall x, x ∈ l -> f x = Some (g x)) -> omap f l = g <$> l.
Proof.
  induction l as [|x l IH]; intros H; [reflexivity|].
  simpl. rewrite (H x) by left. simpl. f_equal.
  apply IH. intros y Hy. apply H. right. exact Hy.
Qed.

(** X9. On every reachable ledger the front end's [getAllVaults] returns
    every vault ever created, in id order and none twice: as many vaults as
    [vaultCount], the one at position [k] being the stored vault of id
    [k + 1]. *)
Theorem getAllVaults_lists_every_vault (find : Matcher) (txs : list (Env * Call)) :
  useTimeLock.getAllVaults (run_with find initial_state txs)
  = vault_at (run_with find initial_state txs)
      <$> seqZ 1 (vaultCount (run_with find initial_state txs))
  /\ length (useTimeLock.getAllVaults (run_with find initial_state txs))
     = Z.to_nat (vaultCount (run_with find initial_state txs))
  /\ (forall k : nat,
        Z.of_nat k < vaultCount (run_with find initial_state txs) ->
        exists v,
          useTimeLock.getAllVaults (run_with find initial_state txs) !! k = Some v
          /\ id v = Z.of_nat k + 1).
Proof.
  destruct (run_with_table_ok find txs initial_state initial_state_table_ok)
    as (_ & _ & Hwf & _).
  set (st := run_with find initial_state txs) in *.
  assert (Hall : useTimeLock.getAllVaults st = vault_at st <$> seqZ 1 (vaultCount st)).
  { unfold useTimeLock.getAllVaults. apply omap_fmap_elem. intros k Hk.
    apply elem_of_seqZ in Hk.
    destruct (Hwf k ltac:(lia)) as (_ & Hactive & _).
    unfold useTimeLock.getVault, getVault.
    rewrite (vaultExists_active st k ltac:(lia) Hactive). simpl.
    rewrite Hactive. reflexivity. }
  split; [exact Hall|]. rewrite Hall. split.
  - rewrite length_fmap, length_seqZ. reflexivity.
  - intros k Hk. exists (vault_at st (1 + Z.of_nat k)). split.
    + rewrite list_lookup_fmap, lookup_seqZ_lt by lia. reflexivity.
    + destruct (Hwf (1 + Z.of_nat k) ltac:(lia)) as (Hid & _). lia.
Qed.

Lemma getAllVaults_lists_every_vault_witness :
  exists v, useTimeLock.getAllVaults scenario_unlocked !! 0%nat = Some v
            /\ id v = Z.of_nat 0 + 1.
Proof.
  apply (proj2 (proj2 (getAllVaults_lists_every_vault _findBeneficiaryAndCalculateClaim
                         [(scenario_env 7 1000 100, CallCreateVault 200 STAGED 2);
                          (scenario_env 7 0 110, CallAddBeneficiary 1 0 55 66 [] []);
                          (scenario_env 7 0 120, CallAddBeneficiary 1 1 57 68 [] []);
                          (scenario_env 7 0 130, CallEmergencyUnlock 1)])) 0%nat).
  vm_compute. reflexivity.
Defined.

(** X10. A vault that [createVault] created can be read back for good: on
    a ledger with a non-negative counter, after any later transactions
    [getVault] on the returned id still succeeds and shows the caller as
    creator and the deposit, unlock time, slot count and mode that were
    given; right after the call the id is the last entry of the caller's
    creator list. *)
Theorem created_vault_stays_readable (find : Matcher) (env : Env) (st : State)
    (t : Z) (mode : UnlockMode) (n i : Z) (st' : State) (effs : list Effect)
    (txs : list (Env * Call)) :
  0 <= vaultCount st ->
  createVault env st t mode n = Ok (i, st', effs) ->
  last (getCreatorVaults st' (msg_sender env)) = Some i
  /\ exists v,
       getVault (run_with find st' txs) i = Ok v
       /\ id v = i /\ creator v = msg_sender env /\ totalAmount v = msg_value env
       /\ firstUnlockTime v = t /\ beneficiaryCount v = n /\ unlockMode v = mode
       /\ isActive v = true.
Proof.
  intros Hcount0 H.
  pose proof (createVault_Ok_others _ _ _ _ _ _ _ _ H) as (Hcv & _).
  apply createVault_Ok in H as (_ & _ & _ & Hi & _ & Hvaults & Hcount & _).
  split.
  { unfold getCreatorVaults at 1. rewrite Hcv, lookup_insert_eq. simpl.
    apply last_snoc. }
  pose proof (vault_at_insert st st' i _ i Hvaults) as Hat.
  rewrite decide_True in Hat by reflexivity.
  destruct (run_with_keeps_terms find txs st') as [Hlater Hterms].
  specialize (Hterms i ltac:(lia)). rewrite Hat in Hterms.
  destruct Hterms as (Hid & Hcreator & Hamt & Htime & Hactive & Hslots & Hmode).
  simpl in Hid, Hcreator, Hamt, Htime, Hactive, Hslots, Hmode.
  exists (vault_at (run_with find st' txs) i).
  split; [|repeat split; congruence].
  unfold getVault. rewrite vaultExists_active; [reflexivity | lia | congruence].
Qed.

Lemma created_vault_stays_readable_witness :
  last (getCreatorVaults scenario_created 7) = Some 1
  /\ exists v,
       getVault (run_with _findBeneficiaryAndCalculateClaim scenario_created
                   [(scenario_env 7 0 130, CallEmergencyUnlock 1)]) 1 = Ok v
       /\ id v = 1 /\ creator v = 7 /\ totalAmount v = 1000
       /\ firstUnlockTime v = 200 /\ beneficiaryCount v = 2 /\ unlockMode v = STAGED
       /\ isActive v = true.
Proof.
  apply (created_vault_stays_readable _findBeneficiaryAndCalculateClaim
           (scenario_env 7 1000 100) initial_state 200 STAGED 2 1 scenario_created
           [Emit (VaultCreated 1 7 1000 200)]).
  - simpl. lia.
  - vm_compute. reflexivity.
Defined.

(** ** Value held by the contract *)

Lemma transferred_app (l1 l2 : list Effect) :
  transferred (l1 ++ l2) = transferred l1 + transferred l2.
Proof. unfold transferred. rewrite fmap_app. apply sum_list_app. Qed.

Lemma no_transfer_nothing_transferred (effs : list Effect) :
  no_transfer effs -> transferred effs = 0.
Proof.
  unfold no_transfer, transferred, sum_list.
  induction effs as [|e effs IH]; intros H; [reflexivity|].
  rewrite fmap_cons. cbn [foldr].
  rewrite IH by (intros r x Hin; apply (H r x); right; exact Hin).
  destruct e as [ev|r x]; [reflexivity|]. exfalso. apply (H r x). left.
Qed.

Lemma transferred_update_stages (env : Env) (vaultId S : Z) (st : State) :
  transferred (update_stages env vaultId S st).2 = 0.
Proof. apply no_transfer_nothing_transferred, update_stages_no_transfer. Qed.

Lemma execute_with_value (find : Matcher) (env : Env) (c : Call)
    (st st' : State) (effs : list Effect) :
  execute_with find env c st = Ok (st', effs) ->
  (balance st' + transferred effs = balance st + deposit_of env c
   /\ deposit_of env c = 0 /\ 0 <= transferred effs <= balance st)
  \/ (balance st' + transferred effs = balance st + deposit_of env c
      /\ transferred effs = 0 /\ 0 <= deposit_of env c).
Proof.
  intros H. destruct c as [t mode n|v i a m pa pm|v|v]; simpl in H; inv_bind H.
  - destruct a as [[j s] e]. injection H as <- <-. simpl. right.
    apply createVault_Ok in Hstep as (Hval & _ & _ & _ & _ & _ & _ & _ & Hbal & ->).
    unfold transferred, sum_list. simpl. lia.
  - right. apply addBeneficiary_Ok in H as (_ & _ & _ & _ & _ & _ & _ & Hbal & ->).
    unfold transferred, sum_list. simpl. lia.
  - right. apply emergencyUnlock_Ok in H as (_ & _ & _ & _ & _ & _ & Hbal & ->).
    unfold transferred, sum_list. simpl. lia.
  - left. apply claimInheritance_with_Ok in H
      as (S & index & amount & _ & _ & _ & _ & Hpos & _ & Hfunds & _ & _ & _ & _
          & Hbal & ->).
    rewrite transferred_app, transferred_update_stages.
    unfold transferred, sum_list. simpl. lia.
Qed.



Lemma sum_list_fmap_ext_elem {A} (f g : A -> Z) (l : list A) :
  (forall x, x ∈ l -> f x = g x) -> sum_list (f <$> l) = sum_list (g <$> l).
Proof.
  unfold sum_list. induction l as [|x l IH]; intros H; [reflexivity|].
  rewrite !fmap_cons. cbn [foldr]. rewrite (H x) by left.
  rewrite IH by (intros y Hy; apply H; right; exact Hy). reflexivity.
Qed.

Lemma execute_keeps_surplus (env : Env) (c : Call) (st st' : State)
    (effs : list Effect) :
  vault_table_ok st ->
  execute env c st = Ok (st', effs) ->
  balance st' - total_deposits st' = balance st - total_deposits st.
Proof.
  unfold execute. intros (Hcount0 & _) H.
  pose proof (execute_keeps_value env c st st' effs H) as (Hnone & _).
  apply no_transfer_nothing_transferred in Hnone.
  assert (Hbal : balance st' = balance st + deposit_of env c).
  { pose proof (execute_with_value _ _ _ _ _ _ H) as [[? _]|[? _]]; lia. }
  apply execute_with_table_step in H
    as [(Hdep & Hcount & _ & Hterms & _)
       |(t & mode & n & -> & _ & _ & Hcount & Hvaults & _)].
  - assert (Hsame : total_deposits st' = total_deposits st).
    { unfold total_deposits. rewrite Hcount.
      apply sum_list_fmap_ext_elem. intros k _.
      destruct (Hterms k) as (_ & _ & Hamt & _). symmetry. exact Hamt. }
    lia.
  - assert (Hmore : total_deposits st' = total_deposits st + msg_value env).
    { unfold total_deposits.
      rewrite Hcount, seqZ_snoc, fmap_app, sum_list_app by assumption.
      assert (Hlast : sum_list ((fun k => totalAmount (vault_at st' k))
                                  <$> [vaultCount st + 1]) = msg_value env).
      { unfold sum_list. simpl.
        rewrite (vault_at_insert st st' _ _ (vaultCount st + 1) Hvaults).
        rewrite decide_True by reflexivity. simpl. lia. }
      rewrite Hlast. f_equal.
      apply sum_list_fmap_ext_elem. intros k Hk. apply elem_of_seqZ in Hk.
      rewrite (vault_at_insert st st' _ _ k Hvaults), decide_False by lia.
      reflexivity. }
    simpl in Hbal. lia.
Qed.

Lemma credited_nonneg (steps : list LedgerStep) : 0 <= credited steps.
Proof.
  unfold credited, sum_list. induction steps as [|s steps IH]; [simpl; lia|].
  rewrite fmap_cons. cbn [foldr]. destruct s as [env c|amount]; lia.
Qed.

Lemma run_open_surplus (steps : list LedgerStep) (st : State) :
  vault_table_ok st ->
  vault_table_ok (run_open st steps)
  /\ balance (run_open st steps) - total_deposits (run_open st steps)
     = balance st - total_deposits st + credited steps.
Proof.
  revert st. induction steps as [|s steps IH]; intros st Hok.
  - split; [exact Hok|]. unfold credited, sum_list. simpl. lia.
  - change (run_open st (s :: steps)) with (run_open (ledger_step st s) steps).
    assert (Hhead : credited (s :: steps)
                    = match s with
                      | StepCall _ _ => 0
                      | StepCredit amount => Z.of_N amount
                      end + credited steps)
      by (unfold credited, sum_list; rewrite fmap_cons; reflexivity).
    assert (Hstep : vault_table_ok (ledger_step st s)
                    /\ balance (ledger_step st s) - total_deposits (ledger_step st s)
                       = balance st - total_deposits st
                         + match s with
                           | StepCall _ _ => 0
                           | StepCredit amount => Z.of_N amount
                           end).
    { destruct s as [env c|amount]; simpl.
      - destruct (transact_with_cases _findBeneficiaryAndCalculateClaim st (env, c))
          as [(e & _ & Hsame)|(effs & Hexec)]; fold (transact st (env, c)) in *.
        + rewrite Hsame. split; [exact Hok | lia].
        + split; [exact (execute_with_keeps_table _ _ _ _ _ _ Hok Hexec)|].
          rewrite (execute_keeps_surplus _ _ _ _ _ Hok Hexec). lia.
      - split; [exact Hok|].
        change (total_deposits (set_balance (balance st + Z.of_N amount) st))
          with (total_deposits st).
        lia. }
    destruct Hstep as [Hok1 Hsur1]. destruct (IH _ Hok1) as [Hok2 Hsur2].
    split; [exact Hok2|]. rewrite Hsur2, Hsur1, Hhead. lia.
Qed.

(** X12. With the placeholder matching function no deposit ever leaves the
    contract.  Along any interleaving of transactions and of ether credited
    from outside, starting from the empty ledger, the balance never falls
    below the sum of the deposits of all vaults created so far: it is that
    sum plus what was credited from outside. *)
Theorem deposits_never_leave (steps : list LedgerStep) :
  total_deposits (run_open initial_state steps) <= balance (run_open initial_state steps)
  /\ balance (run_open initial_state steps)
     = total_deposits (run_open initial_state steps) + credited steps.
Proof.
  destruct (run_open_surplus steps initial_state initial_state_table_ok) as [_ H].
  pose proof (credited_nonneg steps).
  change (balance initial_state) with 0 in H.
  change (total_deposits initial_state) with 0 in H.
  lia.
Qed.

(** X13. With the placeholder matching function nobody is ever recorded as
    a beneficiary: [getBeneficiaryVaults] returns the empty list for every
    address on every ledger reached from the empty one. *)
Theorem beneficiary_lists_stay_empty (txs : list (Env * Call)) (who : address) :
  getBeneficiaryVaults (run initial_state txs) who = [].
Proof.
  assert (H : beneficiaryVaults (run initial_state txs) = ∅).
  { unfold run.
    apply (run_with_invariant _findBeneficiaryAndCalculateClaim
             (fun s => beneficiaryVaults s = ∅)); [|reflexivity].
    intros env c s s' effs Hs Hexec.
    destruct c as [t mode n|v i a m pa pm|v|v]; simpl in Hexec; inv_bind Hexec.
    - destruct a as [[j s0] e]. injection Hexec as <- <-. simpl.
      apply createVault_Ok_others in Hstep as (_ & -> & _). exact Hs.
    - apply addBeneficiary_Ok_others in Hexec as (_ & _ & _ & -> & _). exact Hs.
    - apply emergencyUnlock_Ok_others in Hexec as (_ & -> & _). exact Hs.
    - destruct (claimInheritance_fails env s v) as [e He].
      unfold claimInheritance in He. congruence. }
  unfold getBeneficiaryVaults. rewrite H, lookup_empty. reflexivity.
Qed.

(** ** Emergency unlock and the stage *)

(** X14. An emergency unlock opens every stage at once and for good:
    after a successful [emergencyUnlock], on every later ledger and at
    every timestamp (also before [firstUnlockTime]) the vault is still
    emergency-unlocked and [_getCurrentStage] returns TOTAL_STAGES. *)
Theorem emergency_unlock_opens_all_stages (find : Matcher) (env env' : Env)
    (st st' : State) (vaultId : Z) (effs : list Effect) (txs : list (Env * Call)) :
  emergencyUnlock env st vaultId = Ok (st', effs) ->
  emergencyUnlocked (vault_at (run_with find st' txs) vaultId) = true
  /\ _getCurrentStage env' (run_with find st' txs) vaultId = Ok TOTAL_STAGES.
Proof.
  intros H.
  apply emergencyUnlock_Ok in H as (Hex & Hcreator & _ & Hvaults & Hcount & _).
  apply vaultExists_Ok in Hex as [Hin Hactive].
  pose proof (vault_at_insert st st' vaultId _ vaultId Hvaults) as Hat.
  rewrite decide_True in Hat by reflexivity.
  assert (Hnow : emergency_unlocked_by (msg_sender env) st' vaultId).
  { unfold emergency_unlocked_by. rewrite Hat, Hcount. simpl. tauto. }
  destruct (run_with_keeps_unlock find _ txs st' vaultId Hnow) as (_ & _ & _ & Hlater).
  split; [exact Hlater|]. unfold _getCurrentStage. rewrite Hlater. reflexivity.
Qed.

Lemma emergency_unlock_opens_all_stages_witness :
  emergencyUnlocked (vault_at scenario_unlocked 1) = true
  /\ _getCurrentStage (scenario_env 9 0 0) scenario_unlocked 1 = Ok TOTAL_STAGES.
Proof.
  apply (emergency_unlock_opens_all_stages _findBeneficiaryAndCalculateClaim
           (scenario_env 7 0 130) (scenario_env 9 0 0) scenario_written scenario_unlocked
           1 [Emit (EmergencyUnlock 1 130)] []).
  vm_compute. reflexivity.
Defined.

(** ** Accumulators and who may change a vault *)

Lemma execute_with_accumulators (find : Matcher) (env : Env) (c : Call)
    (st st' : State) (effs : list Effect) (v i : Z) :
  execute_with find env c st = Ok (st', effs) ->
  totalClaimed (beneficiary_at st v i) <= totalClaimed (beneficiary_at st' v i)
  /\ (totalClaimed (beneficiary_at st v i) <> 0 ->
        encryptedAddress (beneficiary_at st' v i) = encryptedAddress (beneficiary_at st v i)
        /\ encryptedAmount (beneficiary_at st' v i)
           = encryptedAmount (beneficiary_at st v i)).
Proof.
  intros H. destruct c as [t mode n|v0 i0 a m pa pm|v0|v0]; simpl in H; inv_bind H.
  - destruct a as [[j s] e]. injection H as <- <-. simpl.
    apply createVault_Ok in Hstep as (_ & _ & _ & _ & _ & _ & _ & Hben & _).
    unfold beneficiary_at. rewrite Hben. split; [lia | tauto].
  - apply addBeneficiary_Ok in H as (_ & _ & _ & Hzero & _ & _ & Hben & _).
    rewrite (beneficiary_at_insert st st' _ _ v i Hben).
    destruct (decide ((v0, i0) = (v, i))) as [[= <- <-]|]; [|split; [lia | tauto]].
    simpl. rewrite Hzero. split; [lia | intros Hne; exfalso; apply Hne; reflexivity].
  - apply emergencyUnlock_Ok in H as (_ & _ & _ & _ & _ & Hben & _).
    unfold beneficiary_at. rewrite Hben. split; [lia | tauto].
  - apply claimInheritance_with_Ok in H
      as (S & index & amount & _ & _ & _ & _ & Hpos & _ & _ & _ & _ & _ & Hben & _).
    rewrite (beneficiary_at_insert st st' _ _ v i Hben).
    destruct (decide ((v0, index) = (v, i))) as [[= <- <-]|]; [|split; [lia | tauto]].
    simpl. split; [lia | tauto].
Qed.

(** X15. Accumulators are never reset and a slot that has paid out is
    frozen: along any sequence of transactions, with any matching function,
    [totalClaimed] of every slot never decreases, and once it is positive
    the slot's two ciphertext handles never change again. *)
Theorem accumulators_never_reset (find : Matcher) (txs : list (Env * Call))
    (st : State) (v i : Z) :
  totalClaimed (beneficiary_at st v i)
  <= totalClaimed (beneficiary_at (run_with find st txs) v i)
  /\ (0 < totalClaimed (beneficiary_at st v i) ->
        encryptedAddress (beneficiary_at (run_with find st txs) v i)
        = encryptedAddress (beneficiary_at st v i)
        /\ encryptedAmount (beneficiary_at (run_with find st txs) v i)
           = encryptedAmount (beneficiary_at st v i)).
Proof.
  apply (run_with_invariant find
           (fun s => totalClaimed (beneficiary_at st v i)
                     <= totalClaimed (beneficiary_at s v i)
                     /\ (0 < totalClaimed (beneficiary_at st v i) ->
                           encryptedAddress (beneficiary_at s v i)
                           = encryptedAddress (beneficiary_at st v i)
                           /\ encryptedAmount (beneficiary_at s v i)
                              = encryptedAmount (beneficiary_at st v i)))).
  - intros env c s s' effs [Hmono Hfrozen] H.
    destruct (execute_with_accumulators find env c s s' effs v i H) as [Hstep Hkeep].
    split; [lia|]. intros Hpaid.
    destruct (Hfrozen Hpaid) as [Ha Hm].
    destruct (Hkeep ltac:(lia)) as [Ha' Hm']. split; congruence.
  - split; [lia | tauto].
Qed.

Lemma accumulators_never_reset_witness :
  encryptedAddress
    (beneficiary_at
       (run_with spec_matcher scenario_claimed
          [(scenario_env 7 0 150, CallAddBeneficiary 1 0 77 88 [] [])]) 1 0)
  = encryptedAddress (beneficiary_at scenario_claimed 1 0).
Proof.
  apply (proj2 (accumulators_never_reset spec_matcher
                  [(scenario_env 7 0 150, CallAddBeneficiary 1 0 77 88 [] [])]
                  scenario_claimed 1 0)).
  vm_compute. reflexivity.
Defined.

(** X16. With the placeholder matching function only its creator can
    change an existing vault: if a successful call altered the record of an
    assigned vault or one of its slots, the caller was that vault's
    creator. *)
Theorem only_creator_changes_vault (env : Env) (c : Call) (st st' : State)
    (effs : list Effect) (k : Z) :
  execute env c st = Ok (st', effs) ->
  k <= vaultCount st ->
  vault_at st' k <> vault_at st k
  \/ (exists i, beneficiary_at st' k i <> beneficiary_at st k i) ->
  msg_sender env = creator (vault_at st k).
Proof.
  unfold execute. intros H Hk Hchanged.
  destruct c as [t mode n|v i a m pa pm|v|v]; simpl in H; inv_bind H.
  - destruct a as [[j s] e]. injection H as <- <-. simpl in *.
    apply createVault_Ok in Hstep as (_ & _ & _ & -> & _ & Hvaults & _ & Hben & _).
    exfalso. destruct Hchanged as [Hv|[i Hs]].
    + apply Hv. rewrite (vault_at_insert st s _ _ k Hvaults), decide_False by lia.
      reflexivity.
    + apply Hs. unfold beneficiary_at. rewrite Hben. reflexivity.
  - apply addBeneficiary_Ok in H as (_ & Hcreator & _ & _ & Hvaults & _ & Hben & _).
    destruct Hchanged as [Hv|[j Hs]].
    + exfalso. apply Hv. unfold vault_at. rewrite Hvaults. reflexivity.
    + rewrite (beneficiary_at_insert st st' _ _ k j Hben) in Hs.
      destruct (decide ((v, i) = (k, j))) as [[= <- <-]|]; [congruence|].
      exfalso. apply Hs. reflexivity.
  - apply emergencyUnlock_Ok in H as (_ & Hcreator & _ & Hvaults & _ & Hben & _).
    destruct Hchanged as [Hv|[j Hs]].
    + rewrite (vault_at_insert st st' _ _ k Hvaults) in Hv.
      destruct (decide (v = k)) as [<-|]; [congruence|].
      exfalso. apply Hv. reflexivity.
    + exfalso. apply Hs. unfold beneficiary_at. rewrite Hben. reflexivity.
  - destruct (claimInheritance_fails env st v) as [e He].
    unfold claimInheritance in He. congruence.
Qed.

Lemma only_creator_changes_vault_witness :
  msg_sender (scenario_env 7 0 130) = creator (vault_at scenario_written 1).
Proof.
  apply (only_creator_changes_vault (scenario_env 7 0 130) (CallEmergencyUnlock 1)
           scenario_written scenario_unlocked [Emit (EmergencyUnlock 1 130)] 1).
  - vm_compute. reflexivity.
  - vm_compute. discriminate.
  - left. vm_compute. discriminate.
Defined.

(** ** What the front end encrypts *)

(** X17. The front end encrypts an address and an amount reduced to their
    low 128 bits: the encrypted value is the input modulo 2^128, it is the
    input itself below 2^128, and two inputs that differ by a multiple of
    2^128 (two distinct 160-bit addresses, or an amount of 2^128 wei more)
    are encrypted as the same value. *)
Theorem encrypted_fields_keep_low_128_bits (x k : Z) :
  identity_of x = x mod 2 ^ 128
  /\ amountHash x = x mod 2 ^ 128
  /\ 0 <= identity_of x < 2 ^ 128
  /\ (0 <= x < 2 ^ 128 -> identity_of x = x /\ amountHash x = x)
  /\ identity_of (x + k * 2 ^ 128) = identity_of x
  /\ amountHash (x + k * 2 ^ 128) = amountHash x.
Proof.
  assert (Hid : forall y, identity_of y = y mod 2 ^ 128).
  { intros y. unfold identity_of.
    replace (2 ^ 128 - 1) with (Z.ones 128) by (rewrite Z.ones_equiv; reflexivity).
    apply Z.land_ones. lia. }
  assert (Ham : forall y, amountHash y = y mod 2 ^ 128).
  { intros y. unfold amountHash.
    replace (Z.shiftl 1 128 - 1) with (Z.ones 128)
      by (rewrite Z.ones_equiv, Z.shiftl_1_l; reflexivity).
    apply Z.land_ones. lia. }
  rewrite ?Hid, ?Ham.
  split; [reflexivity|]. split; [reflexivity|].
  split; [apply Z.mod_pos_bound; lia|].
  split; [intros Hx; rewrite Z.mod_small by assumption; tauto|].
  rewrite Z.mod_add by lia. tauto.
Qed.

Lemma encrypted_fields_keep_low_128_bits_witness :
  identity_of (9 + 1 * 2 ^ 128) = identity_of 9 /\ identity_of 9 = 9.
Proof.
  destruct (encrypted_fields_keep_low_128_bits 9 1) as (_ & _ & _ & Hsmall & Hcol & _).
  split; [exact Hcol|]. apply Hsmall. vm_compute. split; [discriminate | reflexivity].
Defined.
